(** * Orchestration core of qobuz-favorites-downloader (src/main.py, src/web_ui.py)

    A shallow embedding of the scheduled batch-download engine:
    [get_user_favorites], [download_item], [batch_download],
    [process_favorites], [job], the scheduler tick and the
    [/api/trigger] endpoint.  The process-wide mutable state
    ([app_state], the [job_running] event) is threaded through a small
    state-and-exception monad; the remote collaborators (Qobuz API, the
    downloader, the thread pool's timing) are inputs of the model. *)

From Stdlib Require Import String List ZArith Bool Lia Permutation Relations.
Import ListNotations.
Open Scope string_scope.
Open Scope list_scope.
Open Scope Z_scope.

(** ** Python values *)

(** A favorite item as returned by [user.favorites_get]; only [.id] is used. *)
Record Item := mkItem { id : Z }.

(** The exceptions that matter: [ValueError] raised by [range] or by
    [ThreadPoolExecutor], the [TimeoutError] of [future.result(timeout=600)],
    an arbitrary failure of a collaborator, and a [BaseException] that is not
    an [Exception] ([KeyboardInterrupt]), which [except Exception] lets pass. *)
Inductive exn :=
| ValueError (msg : string)
| TimeoutError
| RuntimeError (msg : string)
| KeyboardInterrupt.

(** [isinstance(e, Exception)]. *)
Definition is_Exception (e : exn) : bool :=
  match e with
  | KeyboardInterrupt => false
  | _ => true
  end.

(** [str(e)]; a [concurrent.futures.TimeoutError()] prints as the empty string. *)
Definition str_exn (e : exn) : string :=
  match e with
  | ValueError m => m
  | TimeoutError => ""
  | RuntimeError m => m
  | KeyboardInterrupt => ""
  end.

(** Outcome of a Python computation: a value or a raised exception. *)
Inductive res (A : Type) :=
| Ok (a : A)
| Raise (e : exn).
Arguments Ok {A} a.
Arguments Raise {A} e.

(** [len(l)] *)
Definition len {A} (l : list A) : Z := Z.of_nat (length l).

(** [range(start, stop, step)]: zero step raises, otherwise the arithmetic
    progression (the fuel bounds the number of elements). *)
Fixpoint range_up (i stop step : Z) (fuel : nat) : list Z :=
  match fuel with
  | O => []
  | S f => if i <? stop then i :: range_up (i + step) stop step f else []
  end.

Fixpoint range_down (i stop step : Z) (fuel : nat) : list Z :=
  match fuel with
  | O => []
  | S f => if stop <? i then i :: range_down (i + step) stop step f else []
  end.

Definition py_range (start stop step : Z) : res (list Z) :=
  if step =? 0 then Raise (ValueError "range() arg 3 must not be zero")
  else if 0 <? step then Ok (range_up start stop step (Z.to_nat (stop - start)))
  else Ok (range_down start stop step (Z.to_nat (start - stop))).

(** [l[i:j]] for non-negative [i] and [j] (the only slices taken here). *)
Definition py_slice {A} (l : list A) (i j : Z) : list A :=
  firstn (Z.to_nat (j - i)) (skipn (Z.to_nat i) l).

(** ** The shared state: [app_state] and [job_running] *)

Record Stats := mkStats {
  tracks_downloaded : Z;
  albums_downloaded : Z;
  artists_downloaded : Z;
  tracks_failed : Z;
  albums_failed : Z;
  artists_failed : Z;
  last_error : option string }.

Record FavoritesCount := mkFavoritesCount {
  fc_tracks : Z;
  fc_albums : Z;
  fc_artists : Z }.

Record AppState := mkAppState {
  last_run : option Z;
  next_run : option Z;
  current_status : string;
  stats : Stats;
  current_item : option string;
  favorites_count : FavoritesCount }.

(** The initial value of the module-level [app_state] dict. *)
Definition app_state0 : AppState :=
  mkAppState None None "idle" (mkStats 0 0 0 0 0 0 None) None
    (mkFavoritesCount 0 0 0).

(** Observable events of [batch_download]: the "Processing batch" step of a
    chunk (with the chunk's items) and the cool-down [time.sleep]. *)
Inductive event :=
| EvBatch (batch : list Item)
| EvSleep (secs : Z).

(** The process-wide mutable state: [app_state], the [job_running] event and
    the sequence of batch events. *)
Record World := mkWorld {
  app_state : AppState;
  job_running : bool;
  trace : list event }.

(** ** A state and exception monad *)

Definition M (A : Type) := World -> res A * World.

Definition ret {A} (a : A) : M A := fun w => (Ok a, w).

Definition bind {A B} (m : M A) (k : A -> M B) : M B :=
  fun w => match m w with
           | (Ok a, w') => k a w'
           | (Raise e, w') => (Raise e, w')
           end.

Definition raise {A} (e : exn) : M A := fun w => (Raise e, w).

Definition lift {A} (r : res A) : M A :=
  match r with Ok a => ret a | Raise e => raise e end.

Notation "x <- m ;; k" := (bind m (fun x => k))
  (at level 61, m at next level, right associativity).
Notation "' p <- m ;; k" := (bind m (fun x => match x with p => k end))
  (at level 61, p pattern, m at next level, right associativity).
Notation "m ;; k" := (bind m (fun _ => k))
  (at level 61, right associativity).

(** [try: body  except Exception as e: handler(e)] *)
Definition try_except {A} (body : M A) (handler : exn -> M A) : M A :=
  fun w => match body w with
           | (Raise e, w') => if is_Exception e then handler e w' else (Raise e, w')
           | r => r
           end.

(** [try: body  finally: fin] *)
Definition try_finally {A} (body : M A) (fin : M unit) : M A :=
  fun w => let '(r, w') := body w in
           match fin w' with
           | (Ok _, w'') => (r, w'')
           | (Raise e, w'') => (Raise e, w'')
           end.

(** [for x in l: ...] threading an accumulator. *)
Fixpoint mfold {A B} (f : B -> A -> M B) (l : list A) (b : B) : M B :=
  match l with
  | [] => ret b
  | x :: xs => bind (f b x) (mfold f xs)
  end.

(** Primitive state operations. *)
Definition modify_app (f : AppState -> AppState) : M unit :=
  fun w => (Ok tt, mkWorld (f (app_state w)) (job_running w) (trace w)).

Definition modify_stats (f : Stats -> Stats) : M unit :=
  modify_app (fun a => mkAppState (last_run a) (next_run a) (current_status a)
                         (f (stats a)) (current_item a) (favorites_count a)).

Definition set_current_status (s : string) : M unit :=
  modify_app (fun a => mkAppState (last_run a) (next_run a) s
                         (stats a) (current_item a) (favorites_count a)).

Definition set_last_run (t : option Z) : M unit :=
  modify_app (fun a => mkAppState t (next_run a) (current_status a)
                         (stats a) (current_item a) (favorites_count a)).

Definition set_next_run (t : option Z) : M unit :=
  modify_app (fun a => mkAppState (last_run a) t (current_status a)
                         (stats a) (current_item a) (favorites_count a)).

Definition set_favorites_count (c : FavoritesCount) : M unit :=
  modify_app (fun a => mkAppState (last_run a) (next_run a) (current_status a)
                         (stats a) (current_item a) c).

(** [app_state["stats"]["last_error"] = ...] *)
Definition set_last_error (e : option string) : M unit :=
  modify_stats (fun s => mkStats (tracks_downloaded s) (albums_downloaded s)
                           (artists_downloaded s) (tracks_failed s)
                           (albums_failed s) (artists_failed s) e).

(** The six [app_state["stats"][...] += n] statements. *)
Inductive counter := CTracksDl | CAlbumsDl | CArtistsDl | CTracksKo | CAlbumsKo | CArtistsKo.

Definition incr_stat (c : counter) (n : Z) : M unit :=
  modify_stats (fun s =>
    let td := tracks_downloaded s in let ad := albums_downloaded s in
    let rd := artists_downloaded s in let tf := tracks_failed s in
    let af := albums_failed s in let rf := artists_failed s in
    match c with
    | CTracksDl => mkStats (td + n) ad rd tf af rf (last_error s)
    | CAlbumsDl => mkStats td (ad + n) rd tf af rf (last_error s)
    | CArtistsDl => mkStats td ad (rd + n) tf af rf (last_error s)
    | CTracksKo => mkStats td ad rd (tf + n) af rf (last_error s)
    | CAlbumsKo => mkStats td ad rd tf (af + n) rf (last_error s)
    | CArtistsKo => mkStats td ad rd tf af (rf + n) (last_error s)
    end).

Definition emit (e : event) : M unit :=
  fun w => (Ok tt, mkWorld (app_state w) (job_running w) (trace w ++ [e])).

(** [job_running.is_set()], [.set()], [.clear()] *)
Definition is_set : M bool := fun w => (Ok (job_running w), w).

Definition set_running (b : bool) : M unit :=
  fun w => (Ok tt, mkWorld (app_state w) b (trace w)).

(** ** The collaborators *)

(** The external world a run talks to: the authentication steps of
    [process_favorites] ([get_tokens], [initialize_client], [register_app],
    [qobuz_cl.User]; [Some e] is the exception the first failing one raises),
    [user.favorites_get(fav_type, limit, offset)], [qobuz_dl.download_from_id],
    [user.favorites_del], whether [future.result(timeout=600)] gives up on an
    item's unit (the thread pool's timing), [time.time()], and a bound on the
    number of pages the [while True] pagination loop requests. *)
Record Env := mkEnv {
  authenticate : option exn;
  favorites_get : string -> Z -> Z -> res (list Item);
  download_from_id : Item -> bool -> option exn;
  favorites_del : Item -> option exn;
  times_out : Item -> bool;
  now : Z;
  page_fuel : nat }.

(** The configuration read from the environment at import time. *)
Record Config := mkConfig {
  max_workers_tracks : Z;
  max_workers_albums : Z;
  max_workers_artists : Z;
  batch_size : Z }.

(** The default configuration ([MAX_WORKERS_* = 1], [BATCH_SIZE = 10]). *)
Definition config0 : Config := mkConfig 1 1 1 10.

(** ** [get_user_favorites] *)

(** The [while True] loop, with the accumulated [favorites]; returns the
    requests made ([(limit, offset)]) and the outcome. The [try] around the
    loop catches an [Exception] of [favorites_get] and returns what was
    accumulated. *)
Fixpoint favorites_loop (env : Env) (fav_type : string) (limit offset : Z)
    (favorites : list Item) (fuel : nat) : list (Z * Z) * res (list Item) :=
  match fuel with
  | O => ([], Ok favorites)
  | S f =>
      match favorites_get env fav_type limit offset with
      | Raise e => ([(limit, offset)], if is_Exception e then Ok favorites else Raise e)
      | Ok [] => ([(limit, offset)], Ok favorites)
      | Ok favs =>
          let '(rq, r) := favorites_loop env fav_type limit (offset + limit)
                            (favorites ++ favs) f in
          ((limit, offset) :: rq, r)
      end
  end.

Definition get_user_favorites (env : Env) (fav_type : string) : list (Z * Z) * res (list Item) :=
  let limit := 50 in
  let offset := 0 in
  favorites_loop env fav_type limit offset [] (page_fuel env).

(** ** [download_item] *)

(** The calls a worker makes on the collaborators. *)
Inductive call :=
| CallDownload (item : Item) (is_album : bool)
| CallFavoritesDel (item : Item).

Definition download_item (env : Env) (args : Item * bool) : list call * res (bool * Item) :=
  let '(item, is_album) := args in
  match download_from_id env item is_album with
  | Some e => ([CallDownload item is_album],
               if is_Exception e then Ok (false, item) else Raise e)
  | None =>
      match favorites_del env item with
      | Some e => ([CallDownload item is_album; CallFavoritesDel item],
                   if is_Exception e then Ok (false, item) else Raise e)
      | None => ([CallDownload item is_album; CallFavoritesDel item], Ok (true, item))
      end
  end.

(** ** [batch_download] *)

(** [ThreadPoolExecutor(max_workers=...)] refuses a non-positive size. *)
Definition ThreadPoolExecutor (max_workers : Z) : M unit :=
  if max_workers <=? 0 then raise (ValueError "max_workers must be greater than 0")
  else ret tt.

(** [future.result(timeout=600)] for a submitted task: the worker's result,
    or [TimeoutError] when the wait gives up. *)
Definition future_result (env : Env) (task : Item * bool) : res (bool * Item) :=
  if times_out env (fst task) then Raise TimeoutError
  else snd (download_item env task).

(** One iteration of [for future in futures]. *)
Definition collect_result (env : Env) (acc : list Item * list Item) (task : Item * bool)
    : M (list Item * list Item) :=
  let '(successful_items, failed_items) := acc in
  try_except
    (' (success, item) <- lift (future_result env task) ;;
     if success then ret (successful_items ++ [item], failed_items)
     else ret (successful_items, failed_items ++ [item]))
    (fun e => set_last_error (Some (str_exn e)) ;; ret (successful_items, failed_items)).

(** One iteration of [for i in range(0, len(tasks), effective_batch_size)]. *)
Definition process_batch (env : Env) (tasks : list (Item * bool)) (effective_batch_size : Z)
    (acc : list Item * list Item) (i : Z) : M (list Item * list Item) :=
  let batch := py_slice tasks i (i + effective_batch_size) in
  emit (EvBatch (map fst batch)) ;;
  acc' <- mfold (collect_result env) batch acc ;;
  (if i + effective_batch_size <? len tasks then emit (EvSleep 3) else ret tt) ;;
  ret acc'.

Definition batch_download (env : Env) (items : list Item) (is_album : bool)
    (max_workers current_batch_size : Z) : M (list Item * list Item) :=
  ThreadPoolExecutor max_workers ;;
  let tasks := map (fun item => (item, is_album)) items in
  let effective_batch_size := Z.min current_batch_size (len items) in
  starts <- lift (py_range 0 (len tasks) effective_batch_size) ;;
  mfold (process_batch env tasks effective_batch_size) starts ([], []).

(** ** [process_favorites] and [job] *)

Definition download_category (env : Env) (status : string) (favs : list Item)
    (is_album : bool) (max_workers bsize : Z) (ok ko : counter) : M unit :=
  match favs with
  | [] => ret tt
  | _ =>
      set_current_status status ;;
      ' (successful, failed) <- batch_download env favs is_album max_workers bsize ;;
      incr_stat ok (len successful) ;;
      incr_stat ko (len failed)
  end.

Definition process_favorites (cfg : Config) (env : Env) : M unit :=
  try_finally
    (try_except
       (set_current_status "initializing" ;;
        lift (match authenticate env with Some e => Raise e | None => Ok tt end) ;;
        set_current_status "fetching favorites" ;;
        favorite_tracks <- lift (snd (get_user_favorites env "tracks")) ;;
        favorite_albums <- lift (snd (get_user_favorites env "albums")) ;;
        favorite_artists <- lift (snd (get_user_favorites env "artists")) ;;
        set_favorites_count (mkFavoritesCount (len favorite_tracks)
                               (len favorite_albums) (len favorite_artists)) ;;
        download_category env "downloading tracks" favorite_tracks false
          (max_workers_tracks cfg) (batch_size cfg) CTracksDl CTracksKo ;;
        download_category env "downloading albums" favorite_albums true
          (max_workers_albums cfg) (batch_size cfg) CAlbumsDl CAlbumsKo ;;
        download_category env "downloading artists" favorite_artists false
          (max_workers_artists cfg) (batch_size cfg) CArtistsDl CArtistsKo ;;
        set_current_status "idle" ;;
        set_last_run (Some (now env)))
       (fun e => set_last_error (Some (str_exn e)) ;; set_current_status "error"))
    (set_running false).

Definition job (cfg : Config) (env : Env) : M unit :=
  running <- is_set ;;
  if running then ret tt
  else
    set_running true ;;
    try_finally
      (try_except (process_favorites cfg env) (fun _ => ret tt))
      (set_running false).

(** ** The scheduler tick and the dashboard's trigger *)

(** [app_state["next_run"] = jobs[0].next_run.timestamp()] *)
Definition scheduler_tick (next : option Z) : M unit := set_next_run next.

Record Response := mkResponse {
  status_code : Z;
  success : bool;
  message : string }.

(** [POST /api/trigger]: the response and the job started on a new thread. *)
Definition trigger_job (job_function : option (M unit)) : M (Response * option (M unit)) :=
  running <- is_set ;;
  if running then ret (mkResponse 409 false "A job is already running", None)
  else
    match job_function with
    | None => ret (mkResponse 500 false "Job function not available", None)
    | Some f => ret (mkResponse 200 true "Download job triggered successfully", Some f)
    end.

(** The wiring of [__main__]: [create_app(app_state, job_running, job_function=job)]. *)
Definition api_trigger (cfg : Config) (env : Env) : M (Response * option (M unit)) :=
  trigger_job (Some (job cfg env)).

(** ** Vocabulary of the statements *)

(** The unit of work of an item completes without exception: both
    [download_from_id] and [favorites_del] succeed. *)
Definition unit_succeeds (env : Env) (is_album : bool) (item : Item) : bool :=
  match download_from_id env item is_album, favorites_del env item with
  | None, None => true
  | _, _ => false
  end.

(** The collaborators of an item's unit fail, if at all, with an [Exception]
    (not a bare [BaseException] such as [KeyboardInterrupt]). *)
Definition unit_errors_are_Exceptions (env : Env) (is_album : bool) (item : Item) : bool :=
  match download_from_id env item is_album with
  | Some e => is_Exception e
  | None => match favorites_del env item with
            | Some e => is_Exception e
            | None => true
            end
  end.

(** Partition of a list into consecutive chunks of [k] elements (the last one
    possibly shorter), written independently of [batch_download]. *)
Fixpoint chunks_fuel {A} (k : nat) (l : list A) (fuel : nat) : list (list A) :=
  match fuel with
  | O => []
  | S f => match l with
           | [] => []
           | _ => firstn k l :: chunks_fuel k (skipn k l) f
           end
  end.

Definition chunks_of {A} (k : nat) (l : list A) : list (list A) :=
  chunks_fuel k l (length l).

(** The observable events of processing [chunks] in order with a cool-down
    between two consecutive chunks. *)
Fixpoint chunk_events (chunks : list (list Item)) : list event :=
  match chunks with
  | [] => []
  | [c] => [EvBatch c]
  | c :: cs => EvBatch c :: EvSleep 3 :: chunk_events cs
  end.

(** The Status Store [a] with only [stats.last_error] replaced. *)
Definition with_last_error (a : AppState) (e : option string) : AppState :=
  let s := stats a in
  mkAppState (last_run a) (next_run a) (current_status a)
    (mkStats (tracks_downloaded s) (albums_downloaded s) (artists_downloaded s)
       (tracks_failed s) (albums_failed s) (artists_failed s) e)
    (current_item a) (favorites_count a).

(** Pointwise order of the six download counters. *)
Definition counters_le (s s' : Stats) : Prop :=
  tracks_downloaded s <= tracks_downloaded s' /\
  albums_downloaded s <= albums_downloaded s' /\
  artists_downloaded s <= artists_downloaded s' /\
  tracks_failed s <= tracks_failed s' /\
  albums_failed s <= albums_failed s' /\
  artists_failed s <= artists_failed s'.

(** The operations of the process on the shared state, run one at a time:
    a [job] (from the scheduler, the startup thread or a triggered thread,
    against whatever the remote side does this time), a [POST /api/trigger],
    a scheduler tick updating [next_run]. The read-only endpoints leave the
    state as it is. *)
Inductive step : World -> World -> Prop :=
| step_job (cfg : Config) (env : Env) (w : World) :
    step w (snd (job cfg env w))
| step_trigger (cfg : Config) (env : Env) (w : World) :
    step w (snd (api_trigger cfg env w))
| step_tick (t : option Z) (w : World) :
    step w (snd (scheduler_tick t w)).

(** The items a chunk contributes to the succeeded and to the failed list:
    an item whose wait did not time out, by the outcome of its unit. *)
Definition resolved_ok (env : Env) (task : Item * bool) : list Item :=
  if times_out env (fst task) then []
  else if unit_succeeds env (snd task) (fst task) then [fst task] else [].

Definition resolved_ko (env : Env) (task : Item * bool) : list Item :=
  if times_out env (fst task) then []
  else if unit_succeeds env (snd task) (fst task) then [] else [fst task].

(** Frame conditions on the Status Store: [m] writes at most
    [stats.last_error]; [m] leaves it untouched; [m] never lowers a counter. *)
Definition only_last_error {A} (m : M A) : Prop :=
  forall w, app_state (snd (m w)) = app_state w \/
            exists e, app_state (snd (m w)) = with_last_error (app_state w) e.

Definition keeps_app_state {A} (m : M A) : Prop :=
  forall w, app_state (snd (m w)) = app_state w.

Definition counters_mono {A} (m : M A) : Prop :=
  forall w, counters_le (stats (app_state w)) (stats (app_state (snd (m w)))).

(** The value of one of the six download counters. *)
Definition counter_val (c : counter) (s : Stats) : Z :=
  match c with
  | CTracksDl => tracks_downloaded s
  | CAlbumsDl => albums_downloaded s
  | CArtistsDl => artists_downloaded s
  | CTracksKo => tracks_failed s
  | CAlbumsKo => albums_failed s
  | CArtistsKo => artists_failed s
  end.

Definition counter_eqb (c1 c2 : counter) : bool :=
  match c1, c2 with
  | CTracksDl, CTracksDl | CAlbumsDl, CAlbumsDl | CArtistsDl, CArtistsDl
  | CTracksKo, CTracksKo | CAlbumsKo, CAlbumsKo | CArtistsKo, CArtistsKo => true
  | _, _ => false
  end.

(** An item whose unit fails, if at all, with an [Exception], and whose wait
    does not time out. *)
Definition unit_clean (env : Env) (is_album : bool) (item : Item) : bool :=
  unit_errors_are_Exceptions env is_album item && negb (times_out env item).

(** Every normal return of [m] leaves [current_status] at [p]. *)
Definition ends_in_phase {A} (p : string) (m : M A) : Prop :=
  forall w a w', m w = (Ok a, w') -> current_status (app_state w') = p.

(** [m] keeps the property [P] of the process state. *)
Definition preserves {A} (P : World -> Prop) (m : M A) : Prop :=
  forall w, P w -> P (snd (m w)).

(** An error message is on record in [stats.last_error]. *)
Definition error_recorded (w : World) : Prop :=
  last_error (stats (app_state w)) <> None.

(** The Status Store [a], with [stats.last_error] set to [str(e)] of the
    [TimeoutError] of a wait when [b] holds. *)
Definition record_timeout (b : bool) (a : AppState) : AppState :=
  if b then with_last_error a (Some (str_exn TimeoutError)) else a.

(** [m] either leaves the Status Store as it is or only sets
    [stats.last_error] to [str(e)] of a [TimeoutError]. *)
Definition only_timeout_write {A} (m : M A) : Prop :=
  forall w, app_state (snd (m w)) = app_state w \/
            app_state (snd (m w)) = record_timeout true (app_state w).

(** [m] has the same outcome [r] from every state, and adds the same
    non-negative amount [d c] to each download counter [c] whatever the
    counters held before. *)
Definition adds_to_counters {A} (m : M A) : Prop :=
  exists (r : res A) (d : counter -> Z),
    (forall c, 0 <= d c) /\
    forall w, fst (m w) = r /\
      forall c, counter_val c (stats (app_state (snd (m w)))) =
                counter_val c (stats (app_state w)) + d c.

(** ** Concrete inputs *)

Definition items_upto (n : nat) : list Item :=
  map (fun k => mkItem (Z.of_nat k)) (seq 1 n).

(** A remote catalog holding the items [1..total] in pages. *)
Definition catalog (total : Z) (fav_type : string) (limit offset : Z) : res (list Item) :=
  Ok (map (fun k => mkItem (offset + Z.of_nat k))
          (seq 1 (Z.to_nat (Z.min limit (total - offset))))).

(** A remote side where the download of item 3 fails, the favorites-removal of
    item 4 fails, and the wait for the items selected by [stuck] times out. *)
Definition demo_env (stuck : Item -> bool) : Env :=
  mkEnv None (catalog 120)
    (fun item _ => if id item =? 3 then Some (RuntimeError "download failed") else None)
    (fun item => if id item =? 4 then Some (RuntimeError "favorites_del failed") else None)
    stuck 1000 10.

(** The pages [catalog 120] serves at offsets 0, 50 and 100. *)
Definition demo_pages : list (list Item) :=
  [firstn 50 (items_upto 120); firstn 50 (skipn 50 (items_upto 120));
   skipn 100 (items_upto 120)].

Definition no_item (item : Item) : bool := false.

Definition item5 (item : Item) : bool := id item =? 5.

Definition world0 : World := mkWorld app_state0 false [].

(** A remote side that refuses the login. *)
Definition login_failure_env : Env :=
  mkEnv (Some (RuntimeError "Invalid credentials")) (catalog 120)
    (fun _ _ => None) (fun _ => None) no_item 1000 10.

(** A remote side whose third favorites page request is interrupted by the user. *)
Definition interrupted_env : Env :=
  mkEnv None
    (fun fav_type limit offset =>
       if offset =? 100 then Raise KeyboardInterrupt else catalog 120 fav_type limit offset)
    (fun _ _ => None) (fun _ => None) no_item 1000 10.

(** * Properties *)

(** ** Monad laws used by the proofs *)

Lemma bind_Ok {A B} (m : M A) (k : A -> M B) w a w' :
  m w = (Ok a, w') -> bind m k w = k a w'.
Proof. intros H. unfold bind. now rewrite H. Qed.

Lemma bind_Raise {A B} (m : M A) (k : A -> M B) w e w' :
  m w = (Raise e, w') -> bind m k w = (Raise e, w').
Proof. intros H. unfold bind. now rewrite H. Qed.

Lemma try_finally_running {A} (m : M A) w :
  job_running (snd (try_finally m (set_running false) w)) = false.
Proof. unfold try_finally. destruct (m w) as [r w']. reflexivity. Qed.

(** ** C10: the per-item worker *)

(** C10. [download_item] reports [(True, item)] exactly when both
    [download_from_id] and [favorites_del] complete without exception; the
    removal is attempted only after the download succeeded; a failed
    removal after a successful download gives [(False, item)], and in
    [batch_download] such an item is counted in the failed list. *)
Theorem download_item_success_iff :
  forall (env : Env) (item : Item) (is_album : bool),
    (snd (download_item env (item, is_album)) = Ok (true, item) <->
       download_from_id env item is_album = None /\ favorites_del env item = None) /\
    (In (CallFavoritesDel item) (fst (download_item env (item, is_album))) ->
       download_from_id env item is_album = None) /\
    (forall e, download_from_id env item is_album = None ->
       favorites_del env item = Some e -> is_Exception e = true ->
       snd (download_item env (item, is_album)) = Ok (false, item) /\
       (forall mw bs w, times_out env item = false -> 1 <= mw -> 1 <= bs ->
          fst (batch_download env [item] is_album mw bs w) = Ok ([], [item]))).
Proof.
  intros env item is_album. unfold download_item.
  destruct (download_from_id env item is_album) as [e|] eqn:Hd.
  - split; [|split].
    + split; [destruct (is_Exception e); simpl; discriminate | intros [Hn _]; discriminate].
    + simpl. intros [Hc|[]]; discriminate.
    + intros e' Hn; discriminate.
  - destruct (favorites_del env item) as [e|] eqn:Hf.
    + split; [|split].
      * split; [destruct (is_Exception e); simpl; discriminate | intros [_ Hn]; discriminate].
      * intros _; reflexivity.
      * intros e' _ He Hx. injection He as <-. split.
        -- simpl. now rewrite Hx.
        -- intros mw bs w Ht Hmw Hbs.
           unfold batch_download, ThreadPoolExecutor.
           replace (mw <=? 0) with false by lia.
           unfold py_range, len; simpl.
           replace (Z.min bs 1) with 1 by lia. simpl.
           unfold bind, ret, mfold, process_batch, emit, collect_result,
             try_except, lift, future_result, download_item, py_slice; simpl.
           rewrite Ht, Hd, Hf, Hx. reflexivity.
    + split; [|split].
      * simpl; tauto.
      * intros _; reflexivity.
      * intros e' _ He; discriminate.
Qed.

(** ** C3: a held lock makes [job] and the trigger no-ops *)

(** C3. When [job_running] is set, [job] returns at once and leaves the whole
    state (the Status Store included) as it was, and [POST /api/trigger]
    (wired to [job] as in [__main__]) answers [409 {success: false}] without
    starting a thread or touching the state; when the flag is clear the
    trigger answers [200 {success: true}] and starts [job] on a new thread. *)
Theorem job_and_trigger_when_busy :
  forall (cfg : Config) (env : Env) (w : World),
    (job_running w = true ->
       job cfg env w = (Ok tt, w) /\
       api_trigger cfg env w =
         (Ok (mkResponse 409 false "A job is already running", None), w)) /\
    (job_running w = false ->
       api_trigger cfg env w =
         (Ok (mkResponse 200 true "Download job triggered successfully",
              Some (job cfg env)), w)).
Proof.
  intros cfg env w. split.
  - intros H. unfold job, api_trigger, trigger_job, bind, is_set. rewrite H.
    split; reflexivity.
  - intros H. unfold api_trigger, trigger_job, bind, is_set. rewrite H.
    reflexivity.
Qed.

(** ** C2: the lock is released on every exit path *)

(** C2. Whatever the remote side does (authentication failure, request
    errors, failing or stuck units, a [BaseException] escaping every
    handler), [process_favorites] ends with [job_running] clear, and so does
    every run of [job] (a call that found the flag clear and set it). *)
Theorem job_releases_lock :
  forall (cfg : Config) (env : Env),
    (forall w, job_running (snd (process_favorites cfg env w)) = false) /\
    (forall w, job_running w = false -> job_running (snd (job cfg env w)) = false).
Proof.
  intros cfg env. split.
  - intros w. apply try_finally_running.
  - intros w H. unfold job, bind at 1, is_set. rewrite H.
    unfold bind, set_running at 1. apply try_finally_running.
Qed.

(** ** C6: pagination *)

Lemma favorites_loop_pages :
  forall env fav_type (pages : list (list Item)) (k : Z) acc fuel stop,
    (forall j p, nth_error pages j = Some p ->
       favorites_get env fav_type 50 (50 * (k + Z.of_nat j)) = Ok p /\ p <> []) ->
    favorites_get env fav_type 50 (50 * (k + len pages)) = stop ->
    (stop = Ok [] \/ exists e, stop = Raise e /\ is_Exception e = true) ->
    (length pages < fuel)%nat ->
    favorites_loop env fav_type 50 (50 * k) acc fuel =
      (map (fun j => (50, 50 * (k + Z.of_nat j))) (seq 0 (S (length pages))),
       Ok (acc ++ concat pages)).
Proof.
  intros env fav_type pages. induction pages as [|p ps IH];
    intros k acc fuel stop Hpages Hstop Hkind Hfuel;
    (destruct fuel as [|fuel]; [simpl in Hfuel; lia|]).
  - unfold len in Hstop; simpl in Hstop. rewrite Z.add_0_r in Hstop.
    simpl. rewrite Z.add_0_r, Hstop, app_nil_r.
    destruct Hkind as [->|[e [-> He]]]; [reflexivity|]. now rewrite He.
  - cbn [favorites_loop]. destruct (Hpages 0%nat p eq_refl) as [Hp Hne].
    change (Z.of_nat 0) with 0 in Hp. rewrite Z.add_0_r in Hp. rewrite Hp.
    assert (Hrec : favorites_loop env fav_type 50 (50 * k + 50) (acc ++ p) fuel =
      (map (fun j => (50, 50 * ((k + 1) + Z.of_nat j))) (seq 0 (S (length ps))),
       Ok ((acc ++ p) ++ concat ps))).
    { replace (50 * k + 50) with (50 * (k + 1)) by lia.
      apply (IH (k + 1) (acc ++ p) fuel stop).
      - intros j q Hq. replace (k + 1 + Z.of_nat j) with (k + Z.of_nat (S j)) by lia.
        apply Hpages. exact Hq.
      - rewrite <- Hstop. f_equal. unfold len. cbn [length]. lia.
      - exact Hkind.
      - simpl in Hfuel. lia. }
    destruct p as [|x xs]; [contradiction|].
    cbn beta iota. rewrite Hrec. cbn beta iota. f_equal.
    + cbn [length].
      change (seq 0 (S (S (length ps)))) with (0%nat :: seq 1 (S (length ps))).
      rewrite <- seq_shift, map_cons, map_map. f_equal.
      * f_equal. lia.
      * apply map_ext. intros j. f_equal. lia.
    + cbn [concat]. rewrite app_assoc. reflexivity.
Qed.

(** C6. If the remote side serves, for [fav_type], the non-empty pages
    [pages] at offsets [0, 50, 100, ...] with limit 50 and then an empty page
    or a request error (an [Exception]), [get_user_favorites] returns without
    raising the concatenation of the pages, whose length is the sum of the
    page lengths, after requesting exactly the pages at offsets
    [0, 50, ..., 50 * length pages] with limit 50 ([page_fuel] only bounds the
    model of the [while True] loop). *)
Theorem get_user_favorites_pages :
  forall (env : Env) (fav_type : string) (pages : list (list Item)) (stop : res (list Item)),
    (forall j p, nth_error pages j = Some p ->
       favorites_get env fav_type 50 (50 * Z.of_nat j) = Ok p /\ p <> []) ->
    favorites_get env fav_type 50 (50 * len pages) = stop ->
    (stop = Ok [] \/ exists e, stop = Raise e /\ is_Exception e = true) ->
    (length pages < page_fuel env)%nat ->
    exists favorites,
      get_user_favorites env fav_type =
        (map (fun j => (50, 50 * Z.of_nat j)) (seq 0 (S (length pages))), Ok favorites) /\
      favorites = concat pages /\
      length favorites = list_sum (map (@length Item) pages).
Proof.
  intros env fav_type pages stop Hpages Hstop Hkind Hfuel.
  exists (concat pages). split; [|split; [reflexivity|apply length_concat]].
  unfold get_user_favorites.
  replace 0 with (50 * 0) at 1 by reflexivity.
  rewrite (favorites_loop_pages env fav_type pages 0 [] (page_fuel env) stop);
    [|exact Hpages|exact Hstop|exact Hkind|exact Hfuel].
  reflexivity.
Qed.

(** ** [batch_download]: the chunk loop *)

Lemma collect_result_step :
  forall env ok ko item is_album w,
    unit_errors_are_Exceptions env is_album item = true ->
    exists a',
      collect_result env (ok, ko) (item, is_album) w =
        (Ok (ok ++ resolved_ok env (item, is_album), ko ++ resolved_ko env (item, is_album)),
         mkWorld a' (job_running w) (trace w)).
Proof.
  intros env ok ko item is_album w Hx.
  unfold collect_result, try_except, bind, lift, future_result, resolved_ok, resolved_ko.
  cbn [fst snd].
  destruct (times_out env item).
  - eexists. unfold raise, set_last_error, modify_stats, modify_app, ret. simpl.
    rewrite !app_nil_r. reflexivity.
  - unfold unit_errors_are_Exceptions in Hx. unfold unit_succeeds, download_item.
    destruct (download_from_id env item is_album) as [e|];
      [|destruct (favorites_del env item) as [e|]];
      try rewrite Hx; unfold ret; rewrite ?app_nil_r;
      exists (app_state w); destruct w; reflexivity.
Qed.

Lemma collect_loop :
  forall env batch acc w,
    Forall (fun t => unit_errors_are_Exceptions env (snd t) (fst t) = true) batch ->
    exists a',
      mfold (collect_result env) batch acc w =
        (Ok (fst acc ++ flat_map (resolved_ok env) batch,
             snd acc ++ flat_map (resolved_ko env) batch),
         mkWorld a' (job_running w) (trace w)).
Proof.
  intros env batch. induction batch as [|[item b] batch IH]; intros [ok ko] w Hall.
  - exists (app_state w). destruct w. simpl. rewrite !app_nil_r. reflexivity.
  - inversion Hall as [|? ? Hx Hrest]; subst.
    destruct (collect_result_step env ok ko item b w Hx) as [a1 H1].
    cbn [mfold]. rewrite (bind_Ok _ _ _ _ _ H1).
    destruct (IH (ok ++ resolved_ok env (item, b), ko ++ resolved_ko env (item, b))
                 (mkWorld a1 (job_running w) (trace w)) Hrest) as [a2 H2].
    exists a2. rewrite H2. cbn [fst snd flat_map job_running trace].
    rewrite !app_assoc. reflexivity.
Qed.

Lemma Forall_skipn_firstn {A} (P : A -> Prop) (l : list A) (n : nat) :
  Forall P l -> Forall P (skipn n l) /\ Forall P (firstn n l).
Proof.
  intros H. rewrite <- (firstn_skipn n l) in H.
  apply Forall_app in H. tauto.
Qed.

Lemma chunk_events_cons (c : list Item) (cs : list (list Item)) :
  chunk_events (c :: cs) =
    EvBatch c :: match cs with [] => [] | _ => EvSleep 3 :: chunk_events cs end.
Proof. destruct cs; reflexivity. Qed.

Lemma process_batch_step :
  forall env tasks k acc i w,
    Forall (fun t => unit_errors_are_Exceptions env (snd t) (fst t) = true) tasks ->
    exists a',
      process_batch env tasks k acc i w =
        (Ok (fst acc ++ flat_map (resolved_ok env) (py_slice tasks i (i + k)),
             snd acc ++ flat_map (resolved_ko env) (py_slice tasks i (i + k))),
         mkWorld a' (job_running w)
           (trace w ++ EvBatch (map fst (py_slice tasks i (i + k)))
                      :: (if i + k <? len tasks then [EvSleep 3] else []))).
Proof.
  intros env tasks k acc i w Hall.
  assert (Hs : Forall (fun t => unit_errors_are_Exceptions env (snd t) (fst t) = true)
                 (py_slice tasks i (i + k))).
  { unfold py_slice. apply Forall_skipn_firstn.
    apply (Forall_skipn_firstn _ tasks (Z.to_nat i)). exact Hall. }
  unfold process_batch.
  set (batch := py_slice tasks i (i + k)) in *.
  set (w1 := mkWorld (app_state w) (job_running w) (trace w ++ [EvBatch (map fst batch)])).
  destruct (collect_loop env batch acc w1 Hs) as [a1 H1].
  exists a1. unfold bind at 1, emit at 1. fold w1.
  rewrite (bind_Ok _ _ _ _ _ H1).
  destruct (i + k <? len tasks); unfold bind, emit, ret; simpl;
    rewrite <- ?app_assoc; reflexivity.
Qed.

Lemma outer_loop :
  forall env tasks k fuel i acc w,
    1 <= k -> 0 <= i -> (Z.to_nat (len tasks - i) <= fuel)%nat ->
    Forall (fun t => unit_errors_are_Exceptions env (snd t) (fst t) = true) tasks ->
    exists a',
      mfold (process_batch env tasks k) (range_up i (len tasks) k fuel) acc w =
        (Ok (fst acc ++ flat_map (resolved_ok env) (skipn (Z.to_nat i) tasks),
             snd acc ++ flat_map (resolved_ko env) (skipn (Z.to_nat i) tasks)),
         mkWorld a' (job_running w)
           (trace w ++ chunk_events
                         (chunks_fuel (Z.to_nat k) (map fst (skipn (Z.to_nat i) tasks)) fuel))).
Proof.
  intros env tasks k fuel. induction fuel as [|fuel IH];
    intros i acc w Hk Hi Hf Hall.
  - assert (Hnil : skipn (Z.to_nat i) tasks = []).
    { apply skipn_all2. unfold len in Hf. lia. }
    rewrite Hnil. exists (app_state w). destruct acc, w. simpl.
    rewrite !app_nil_r. reflexivity.
  - cbn [range_up]. destruct (i <? len tasks) eqn:Hlt.
    + apply Z.ltb_lt in Hlt.
      destruct (process_batch_step env tasks k acc i w Hall) as [a1 H1].
      cbn [mfold]. rewrite (bind_Ok _ _ _ _ _ H1).
      destruct (IH (i + k) (fst acc ++ flat_map (resolved_ok env) (py_slice tasks i (i + k)),
                            snd acc ++ flat_map (resolved_ko env) (py_slice tasks i (i + k)))
                   (mkWorld a1 (job_running w)
                      (trace w ++ EvBatch (map fst (py_slice tasks i (i + k)))
                                 :: (if i + k <? len tasks then [EvSleep 3] else []))))
        as [a2 H2]; [lia|lia|lia|exact Hall|].
      exists a2. rewrite H2. cbn [fst snd job_running trace].
      assert (Hsplit : skipn (Z.to_nat i) tasks =
                       py_slice tasks i (i + k) ++ skipn (Z.to_nat (i + k)) tasks).
      { unfold py_slice. replace (i + k - i) with k by lia.
        rewrite Z2Nat.inj_add by lia. rewrite Nat.add_comm, <- skipn_skipn.
        symmetry. apply firstn_skipn. }
      assert (Hne : map fst (skipn (Z.to_nat i) tasks) <> []).
      { intros Hm. apply (f_equal (@length _)) in Hm.
        rewrite length_map, length_skipn in Hm. unfold len in Hlt. simpl in Hm. lia. }
      destruct (map fst (skipn (Z.to_nat i) tasks)) as [|y ys] eqn:Hm;
        [contradiction|].
      cbn [chunks_fuel]. rewrite <- Hm, chunk_events_cons.
      rewrite skipn_map, firstn_map, skipn_skipn.
      replace (Z.to_nat k + Z.to_nat i)%nat with (Z.to_nat (i + k)) by lia.
      assert (Hfirst : firstn (Z.to_nat k) (skipn (Z.to_nat i) tasks) = py_slice tasks i (i + k)).
      { unfold py_slice. f_equal. f_equal. lia. }
      rewrite Hfirst, Hsplit, !flat_map_app, !app_assoc.
      f_equal. f_equal. rewrite <- !app_assoc. f_equal. cbn [app]. f_equal.
      destruct (i + k <? len tasks) eqn:Hlt2.
      * apply Z.ltb_lt in Hlt2.
        destruct fuel as [|fuel']; [unfold len in Hf, Hlt2; lia|].
        assert (Hne2 : map fst (skipn (Z.to_nat (i + k)) tasks) <> []).
        { intros Hm2. apply (f_equal (@length _)) in Hm2.
          rewrite length_map, length_skipn in Hm2. unfold len in Hlt2. simpl in Hm2. lia. }
        destruct (map fst (skipn (Z.to_nat (i + k)) tasks)) as [|z zs]; [contradiction|].
        cbn [chunks_fuel app]. reflexivity.
      * apply Z.ltb_ge in Hlt2.
        assert (E : skipn (Z.to_nat (i + k)) tasks = [])
          by (apply skipn_all2; unfold len in Hlt2; lia).
        rewrite E.
        destruct fuel; reflexivity.
    + apply Z.ltb_ge in Hlt.
      assert (Hnil : skipn (Z.to_nat i) tasks = []).
      { apply skipn_all2. unfold len in Hlt. lia. }
      rewrite Hnil. exists (app_state w). destruct acc, w. simpl.
      rewrite !app_nil_r. reflexivity.
Qed.

Lemma chunks_fuel_map {A B} (f : A -> B) (k : nat) (l : list A) (fuel : nat) :
  chunks_fuel k (map f l) fuel = map (map f) (chunks_fuel k l fuel).
Proof.
  revert l. induction fuel as [|fuel IH]; intros l; [reflexivity|].
  destruct l as [|x xs]; [reflexivity|].
  cbn [chunks_fuel map]. rewrite <- (map_cons f x xs), firstn_map, skipn_map, IH.
  reflexivity.
Qed.

Lemma batch_download_run :
  forall env items is_album max_workers current_batch_size w,
    items <> [] -> 1 <= max_workers -> 1 <= current_batch_size ->
    Forall (fun item => unit_errors_are_Exceptions env is_album item = true) items ->
    exists a',
      batch_download env items is_album max_workers current_batch_size w =
        (Ok (flat_map (resolved_ok env) (map (fun item => (item, is_album)) items),
             flat_map (resolved_ko env) (map (fun item => (item, is_album)) items)),
         mkWorld a' (job_running w)
           (trace w ++ chunk_events
                         (chunks_of (Z.to_nat (Z.min current_batch_size (len items))) items))).
Proof.
  intros env items is_album mw c w Hne Hmw Hc Hall.
  set (tasks := map (fun item => (item, is_album)) items).
  assert (Hlen : len tasks = len items) by (unfold len, tasks; now rewrite length_map).
  assert (Hpos : 1 <= len items).
  { destruct items; [contradiction|]. unfold len; cbn [length]. lia. }
  assert (Htasks : Forall (fun t => unit_errors_are_Exceptions env (snd t) (fst t) = true) tasks).
  { unfold tasks. apply Forall_map. exact Hall. }
  destruct (outer_loop env tasks (Z.min c (len items)) (Z.to_nat (len tasks - 0)) 0 ([], []) w)
    as [a' H]; [lia|lia|lia|exact Htasks|].
  exists a'. unfold batch_download, ThreadPoolExecutor.
  replace (mw <=? 0) with false by lia.
  unfold bind at 1, ret at 1. fold tasks.
  unfold py_range. replace (Z.min c (len items) =? 0) with false by lia.
  replace (0 <? Z.min c (len items)) with true by lia.
  unfold lift, bind, ret at 1. rewrite H.
  cbn [fst snd skipn Z.to_nat app]. f_equal. f_equal.
  unfold chunks_of. unfold tasks. rewrite map_map. cbn [fst].
  rewrite map_id, Z.sub_0_r.
  replace (Z.to_nat (len (map (fun item => (item, is_album)) items))) with (length items)
    by (unfold len; rewrite length_map; lia).
  reflexivity.
Qed.

Lemma resolved_without_timeouts :
  forall env is_album items,
    Forall (fun item => times_out env item = false) items ->
    flat_map (resolved_ok env) (map (fun item => (item, is_album)) items) =
      filter (unit_succeeds env is_album) items /\
    flat_map (resolved_ko env) (map (fun item => (item, is_album)) items) =
      filter (fun item => negb (unit_succeeds env is_album item)) items.
Proof.
  intros env is_album items Hall. induction Hall as [|item items Ht _ [IH1 IH2]];
    [split; reflexivity|].
  cbn [map flat_map filter]. rewrite IH1, IH2.
  unfold resolved_ok, resolved_ko. cbn [fst snd]. rewrite Ht.
  destruct (unit_succeeds env is_album item); split; reflexivity.
Qed.

Lemma filter_partition_perm {A} (f : A -> bool) (l : list A) :
  Permutation (filter f l ++ filter (fun x => negb (f x)) l) l.
Proof.
  induction l as [|x xs IH]; [reflexivity|]. cbn [filter].
  destruct (f x); cbn [negb app].
  - now apply perm_skip.
  - rewrite <- Permutation_middle. now apply perm_skip.
Qed.

Lemma resolved_sound :
  forall env is_album items item,
    (In item (flat_map (resolved_ok env) (map (fun it => (it, is_album)) items)) ->
       unit_succeeds env is_album item = true) /\
    (In item (flat_map (resolved_ko env) (map (fun it => (it, is_album)) items)) ->
       unit_succeeds env is_album item = false) /\
    (In item items -> times_out env item = false -> unit_succeeds env is_album item = false ->
       In item (flat_map (resolved_ko env) (map (fun it => (it, is_album)) items))).
Proof.
  intros env is_album items item. rewrite !in_flat_map.
  unfold resolved_ok, resolved_ko. repeat split.
  - intros [[it b] [Hin Hr]]. apply in_map_iff in Hin as [it' [Heq _]].
    injection Heq as <- <-. cbn [fst snd] in Hr.
    destruct (times_out env it'); [destruct Hr|].
    destruct (unit_succeeds env is_album it') eqn:E; simpl in Hr;
      [destruct Hr as [<-|[]]; exact E|contradiction].
  - intros [[it b] [Hin Hr]]. apply in_map_iff in Hin as [it' [Heq _]].
    injection Heq as <- <-. cbn [fst snd] in Hr.
    destruct (times_out env it'); [destruct Hr|].
    destruct (unit_succeeds env is_album it') eqn:E; simpl in Hr;
      [contradiction|destruct Hr as [<-|[]]; exact E].
  - intros Hin Ht Hs. exists (item, is_album). split.
    + apply in_map_iff. exists item. split; [reflexivity|exact Hin].
    + cbn [fst snd]. rewrite Ht, Hs. left. reflexivity.
Qed.

(** ** C1: the succeeded / failed partition *)

(** C1 (as stated, refuted). The claim quantifies over every item list, worker
    count and chunk size; on the empty list [batch_download] raises the
    [ValueError] of [range(0, 0, 0)] instead of returning a pair, and with a
    negative chunk size it returns [([], [])] for a non-empty list. *)
Lemma batch_download_partition_counterexample :
  ~ (forall env items is_album max_workers current_batch_size w,
       exists successful failed w',
         batch_download env items is_album max_workers current_batch_size w =
           (Ok (successful, failed), w') /\
         (length successful + length failed = length items)%nat).
Proof.
  intros H.
  destruct (H (demo_env no_item) [] false 1 10 world0) as [s [f [w' [Heq _]]]].
  vm_compute in Heq. discriminate.
Qed.

(** C1 (amended). For a non-empty list, a worker count and a chunk size of at
    least 1, when every wait for an item's result completes within the
    timeout and the collaborators fail only with [Exception]s,
    [batch_download] returns a pair [(successful, failed)] whose concatenation
    is a permutation of the items: [len(successful) + len(failed) ==
    len(items)], and for distinct items the two lists are disjoint. *)
Theorem batch_download_partition :
  forall env items is_album max_workers current_batch_size w,
    items <> [] -> 1 <= max_workers -> 1 <= current_batch_size ->
    Forall (fun item => unit_errors_are_Exceptions env is_album item = true) items ->
    Forall (fun item => times_out env item = false) items ->
    exists successful failed w',
      batch_download env items is_album max_workers current_batch_size w =
        (Ok (successful, failed), w') /\
      Permutation (successful ++ failed) items /\
      (length successful + length failed = length items)%nat /\
      (NoDup items -> NoDup (successful ++ failed) /\
                      forall item, In item successful -> ~ In item failed).
Proof.
  intros env items is_album mw c w Hne Hmw Hc Hx Ht.
  destruct (batch_download_run env items is_album mw c w Hne Hmw Hc Hx) as [a' H].
  destruct (resolved_without_timeouts env is_album items Ht) as [E1 E2].
  rewrite E1, E2 in H.
  do 3 eexists. split; [exact H|].
  assert (P := filter_partition_perm (unit_succeeds env is_album) items).
  split; [exact P|]. split.
  - rewrite <- length_app. now apply Permutation_length.
  - intros Hnd. assert (Hnd' : NoDup (filter (unit_succeeds env is_album) items ++
                             filter (fun item => negb (unit_succeeds env is_album item)) items))
      by (eapply Permutation_NoDup; [symmetry; exact P|exact Hnd]).
    split; [exact Hnd'|].
    intros item Hs Hf. apply filter_In in Hs as [_ Hs]. apply filter_In in Hf as [_ Hf].
    rewrite Hs in Hf. discriminate.
Qed.

(** ** C4: per-item errors are absorbed *)

(** C4 (as stated, refuted). [batch_download] raises on the empty list: the
    step [min(current_batch_size, len(items))] is 0 and [range] refuses it. *)
Lemma batch_download_raises_on_empty :
  ~ (forall env items is_album max_workers current_batch_size w,
       exists r w', batch_download env items is_album max_workers current_batch_size w =
                    (Ok r, w')).
Proof.
  intros H.
  destruct (H (demo_env no_item) [] true 1 10 world0) as [r [w' Heq]].
  vm_compute in Heq. discriminate.
Qed.

(** C4 (amended). For a non-empty list, a worker count and a chunk size of at
    least 1, when the collaborators fail only with [Exception]s,
    [batch_download] returns normally; every item whose wait did not time out
    and whose download or favorites-removal raised is in the failed list, and
    the failed list holds only such items (the succeeded list only items
    whose unit completed). *)
Theorem batch_download_absorbs_errors :
  forall env items is_album max_workers current_batch_size w,
    items <> [] -> 1 <= max_workers -> 1 <= current_batch_size ->
    Forall (fun item => unit_errors_are_Exceptions env is_album item = true) items ->
    exists successful failed w',
      batch_download env items is_album max_workers current_batch_size w =
        (Ok (successful, failed), w') /\
      (forall item, In item items -> times_out env item = false ->
         unit_succeeds env is_album item = false -> In item failed) /\
      (forall item, In item failed -> unit_succeeds env is_album item = false) /\
      (forall item, In item successful -> unit_succeeds env is_album item = true).
Proof.
  intros env items is_album mw c w Hne Hmw Hc Hx.
  destruct (batch_download_run env items is_album mw c w Hne Hmw Hc Hx) as [a' H].
  do 3 eexists. split; [exact H|].
  split; [|split]; intros item; apply (resolved_sound env is_album items item).
Qed.

(** ** C7: chunks and cool-downs *)

Lemma chunks_fuel_nil {A} (k : nat) (fuel : nat) :
  chunks_fuel k ([] : list A) fuel = [].
Proof. destruct fuel; reflexivity. Qed.

Lemma chunks_fuel_concat {A} (k : nat) (l : list A) (fuel : nat) :
  (1 <= k)%nat -> (length l <= fuel)%nat -> concat (chunks_fuel k l fuel) = l.
Proof.
  intros Hk. revert l. induction fuel as [|fuel IH]; intros l Hl.
  - destruct l; [reflexivity|simpl in Hl; lia].
  - destruct l as [|x xs]; [reflexivity|].
    cbn [chunks_fuel concat]. rewrite IH.
    + apply firstn_skipn.
    + rewrite length_skipn. cbn [length] in *. lia.
Qed.

Lemma chunks_fuel_sizes {A} (k : nat) (l : list A) (fuel : nat) :
  (1 <= k)%nat ->
  Forall (fun ch => ch <> [] /\ (length ch <= k)%nat) (chunks_fuel k l fuel).
Proof.
  intros Hk. revert l. induction fuel as [|fuel IH]; intros l; [constructor|].
  destruct l as [|x xs]; [constructor|].
  cbn [chunks_fuel]. constructor; [|apply IH]. split.
  - destruct k as [|k']; [lia|]. discriminate.
  - apply firstn_le_length.
Qed.

Lemma chunks_fuel_full {A} (k : nat) (l : list A) (fuel : nat) :
  (1 <= k)%nat ->
  Forall (fun ch => length ch = k) (removelast (chunks_fuel k l fuel)).
Proof.
  intros Hk. revert l. induction fuel as [|fuel IH]; intros l; [constructor|].
  destruct l as [|x xs]; [constructor|].
  cbn [chunks_fuel].
  destruct (chunks_fuel k (skipn k (x :: xs)) fuel) as [|c cs] eqn:Hrest; [constructor|].
  change (removelast (firstn k (x :: xs) :: c :: cs))
    with (firstn k (x :: xs) :: removelast (c :: cs)).
  constructor; [|rewrite <- Hrest; apply IH].
  rewrite length_firstn. apply Nat.min_l.
  destruct (le_lt_dec (length (x :: xs)) k) as [Hle|Hlt]; [|lia].
  assert (E : skipn k (x :: xs) = []) by (apply skipn_all2; exact Hle).
  rewrite E, chunks_fuel_nil in Hrest. discriminate.
Qed.

Lemma chunks_fuel_shape {A B} (k : nat) (l1 : list A) (l2 : list B) (fuel : nat) :
  length l1 = length l2 ->
  map (@length A) (chunks_fuel k l1 fuel) = map (@length B) (chunks_fuel k l2 fuel).
Proof.
  revert l1 l2. induction fuel as [|fuel IH]; intros l1 l2 Hl; [reflexivity|].
  destruct l1 as [|x xs], l2 as [|y ys]; try discriminate; [reflexivity|].
  cbn [chunks_fuel map]. f_equal.
  - rewrite !length_firstn. now rewrite Hl.
  - apply IH. rewrite !length_skipn. now rewrite Hl.
Qed.

(** C7. For a non-empty list, a worker count and a chunk size of at least 1
    (and collaborators failing only with [Exception]s, so that no unit aborts
    the loop), [batch_download] processes, strictly in order, the chunks of
    [min(current_batch_size, len(items))] consecutive items that together make
    up the list: every chunk but the last has exactly that size, the last is
    non-empty and no larger, and a 3-second cool-down follows every chunk
    except the last. In particular 25 items with chunk size 10 give chunks of
    10, 10 and 5 items with a cool-down only between chunks 1-2 and 2-3. *)
Theorem batch_download_chunks :
  forall env items is_album max_workers current_batch_size w,
    items <> [] -> 1 <= max_workers -> 1 <= current_batch_size ->
    Forall (fun item => unit_errors_are_Exceptions env is_album item = true) items ->
    let k := Z.to_nat (Z.min current_batch_size (len items)) in
    trace (snd (batch_download env items is_album max_workers current_batch_size w)) =
      trace w ++ chunk_events (chunks_of k items) /\
    concat (chunks_of k items) = items /\
    Forall (fun ch => length ch = k) (removelast (chunks_of k items)) /\
    Forall (fun ch => ch <> [] /\ (length ch <= k)%nat) (chunks_of k items) /\
    (current_batch_size = 10 -> length items = 25%nat ->
       exists c1 c2 c3, chunks_of k items = [c1; c2; c3] /\
         map (@length Item) [c1; c2; c3] = [10; 10; 5]%nat /\
         chunk_events (chunks_of k items) =
           [EvBatch c1; EvSleep 3; EvBatch c2; EvSleep 3; EvBatch c3]).
Proof.
  intros env items is_album mw c w Hne Hmw Hc Hx k.
  assert (Hk : (1 <= k)%nat).
  { unfold k. destruct items; [contradiction|]. unfold len. cbn [length]. lia. }
  destruct (batch_download_run env items is_album mw c w Hne Hmw Hc Hx) as [a' H].
  split; [rewrite H; reflexivity|].
  split; [unfold chunks_of; apply chunks_fuel_concat; [exact Hk|apply Nat.le_refl]|].
  split; [apply chunks_fuel_full; exact Hk|].
  split; [apply chunks_fuel_sizes; exact Hk|].
  intros -> H25.
  assert (Hk10 : k = 10%nat) by (unfold k, len; rewrite H25; reflexivity).
  assert (Hshape : map (@length Item) (chunks_of k items) = [10; 10; 5]%nat).
  { unfold chunks_of. rewrite H25, Hk10.
    rewrite (chunks_fuel_shape 10 items (items_upto 25) 25 H25). reflexivity. }
  destruct (chunks_of k items) as [|c1 [|c2 [|c3 [|c4 cs]]]]; try discriminate.
  exists c1, c2, c3. split; [reflexivity|]. split; [exact Hshape|reflexivity].
Qed.

(** ** C5: units whose wait times out *)

(** C5 (the code's behaviour at the failing input). Six items, the wait for
    item 5 times out, the download of item 3 and the favorites-removal of
    item 4 fail: item 5 is in neither list (it is not counted as failed), the
    other items are processed, and [stats.last_error] becomes [str] of the
    [TimeoutError]. *)
Theorem batch_download_timeout_drops_item :
  times_out (demo_env item5) (mkItem 5) = true /\
  batch_download (demo_env item5) (items_upto 6) false 1 10 world0 =
    (Ok ([mkItem 1; mkItem 2; mkItem 6], [mkItem 3; mkItem 4]),
     mkWorld (with_last_error app_state0 (Some "")) false [EvBatch (items_upto 6)]).
Proof. split; vm_compute; reflexivity. Qed.

(** ** C8: what [batch_download] writes to the Status Store *)

Lemma with_last_error_twice a e1 e2 :
  with_last_error (with_last_error a e1) e2 = with_last_error a e2.
Proof. reflexivity. Qed.

Lemma ole_ret {A} (a : A) : only_last_error (ret a).
Proof. intros w. now left. Qed.

Lemma ole_raise {A} (e : exn) : only_last_error (@raise A e).
Proof. intros w. now left. Qed.

Lemma ole_lift {A} (r : res A) : only_last_error (lift r).
Proof. destruct r; [apply ole_ret|apply ole_raise]. Qed.

Lemma ole_emit (ev : event) : only_last_error (emit ev).
Proof. intros w. now left. Qed.

Lemma ole_set_last_error (e : option string) : only_last_error (set_last_error e).
Proof. intros w. right. exists e. reflexivity. Qed.

Lemma ole_bind {A B} (m : M A) (k : A -> M B) :
  only_last_error m -> (forall a, only_last_error (k a)) -> only_last_error (bind m k).
Proof.
  intros Hm Hk w. unfold bind. specialize (Hm w).
  destruct (m w) as [[a|e] w1] eqn:E; cbn [snd] in Hm; [|exact Hm].
  destruct (Hk a w1) as [H2|[e2 H2]]; rewrite H2;
    destruct Hm as [H1|[e1 H1]]; rewrite H1;
    first [left; reflexivity | right; eexists; reflexivity | right; exists e2; reflexivity].
Qed.

Lemma ole_try_except {A} (m : M A) (h : exn -> M A) :
  only_last_error m -> (forall e, only_last_error (h e)) -> only_last_error (try_except m h).
Proof.
  intros Hm Hh w. unfold try_except. specialize (Hm w).
  destruct (m w) as [[a|e] w1] eqn:E; cbn [snd] in Hm; [exact Hm|].
  destruct (is_Exception e); [|exact Hm].
  destruct (Hh e w1) as [H2|[e2 H2]]; rewrite H2;
    destruct Hm as [H1|[e1 H1]]; rewrite H1;
    first [left; reflexivity | right; eexists; reflexivity | right; exists e2; reflexivity].
Qed.

Lemma ole_mfold {A B} (f : B -> A -> M B) (l : list A) (b : B) :
  (forall b x, only_last_error (f b x)) -> only_last_error (mfold f l b).
Proof.
  intros Hf. revert b. induction l as [|x xs IH]; intros b; cbn [mfold].
  - apply ole_ret.
  - apply ole_bind; [apply Hf|exact IH].
Qed.

Lemma keeps_bind {A B} (m : M A) (k : A -> M B) :
  keeps_app_state m -> (forall a, keeps_app_state (k a)) -> keeps_app_state (bind m k).
Proof.
  intros Hm Hk w. unfold bind. specialize (Hm w).
  destruct (m w) as [[a|e] w1]; cbn [snd] in *; [rewrite Hk|]; exact Hm.
Qed.

Lemma keeps_mfold {A B} (f : B -> A -> M B) (l : list A) (b : B) :
  (forall b x, In x l -> keeps_app_state (f b x)) -> keeps_app_state (mfold f l b).
Proof.
  revert b. induction l as [|x xs IH]; intros b Hf; cbn [mfold].
  - intros w; reflexivity.
  - apply keeps_bind; [apply Hf; now left|].
    intros a. apply IH. intros b' y Hy. apply Hf. now right.
Qed.

Lemma keeps_collect_result env acc task :
  times_out env (fst task) = false -> keeps_app_state (collect_result env acc task).
Proof.
  intros Ht w. destruct acc as [ok ko], task as [item b].
  unfold collect_result, try_except, bind, lift, future_result. cbn [fst] in *.
  rewrite Ht. unfold download_item.
  destruct (download_from_id env item b) as [e|];
    [|destruct (favorites_del env item) as [e|]];
    try (destruct (is_Exception e) eqn:Ex; cbn; try rewrite Ex); reflexivity.
Qed.

Lemma In_py_slice {A} (l : list A) i j x : In x (py_slice l i j) -> In x l.
Proof.
  unfold py_slice. intros H. rewrite <- (firstn_skipn (Z.to_nat i) l).
  apply in_or_app. right. rewrite <- (firstn_skipn (Z.to_nat (j - i)) (skipn (Z.to_nat i) l)).
  apply in_or_app. now left.
Qed.

(** C8 (as stated, refuted). When the wait for an item's result times out,
    [batch_download] itself writes [app_state["stats"]["last_error"]]. *)
Lemma batch_download_writes_status_store :
  ~ (forall env items is_album max_workers current_batch_size w,
       app_state (snd (batch_download env items is_album max_workers current_batch_size w)) =
       app_state w).
Proof.
  intros H. specialize (H (demo_env item5) [mkItem 5] false 1 10 world0).
  vm_compute in H. discriminate.
Qed.

Lemma ole_batch_download env items is_album mw c :
  only_last_error (batch_download env items is_album mw c).
Proof.
  apply ole_bind.
  { unfold ThreadPoolExecutor. destruct (mw <=? 0); [apply ole_raise|apply ole_ret]. }
  intros _. apply ole_bind; [apply ole_lift|]. intros starts.
  apply ole_mfold. intros acc i. unfold process_batch.
  apply ole_bind; [apply ole_emit|]. intros _.
  apply ole_bind; [apply ole_mfold|].
  - intros [ok ko] [item b]. unfold collect_result.
    apply ole_try_except.
    + apply ole_bind; [apply ole_lift|]. intros [[|] it]; apply ole_ret.
    + intros e. apply ole_bind; [apply ole_set_last_error|]. intros _. apply ole_ret.
  - intros acc'. apply ole_bind; [|intros _; apply ole_ret].
    destruct (i + Z.min c (len items) <? len (map (fun item => (item, is_album)) items));
      [apply ole_emit|apply ole_ret].
Qed.

Lemma keeps_batch_download env items is_album mw c :
  Forall (fun item => times_out env item = false) items ->
  keeps_app_state (batch_download env items is_album mw c).
Proof.
  intros Hall. apply keeps_bind.
  { unfold ThreadPoolExecutor. destruct (mw <=? 0); intros w; reflexivity. }
  intros _. apply keeps_bind; [intros w; destruct py_range; reflexivity|]. intros starts.
  apply keeps_mfold. intros acc i _. unfold process_batch.
  apply keeps_bind; [intros w; reflexivity|]. intros _.
  apply keeps_bind; [apply keeps_mfold|].
  - intros acc' task Hin. apply keeps_collect_result.
    apply In_py_slice, in_map_iff in Hin as [item [<- Hin]].
    rewrite Forall_forall in Hall. now apply Hall.
  - intros acc'. apply keeps_bind; [|intros _ w; reflexivity].
    intros w. destruct (_ <? _); reflexivity.
Qed.

(** ** C9: the download counters only grow *)

Lemma counters_le_refl s : counters_le s s.
Proof. unfold counters_le. lia. Qed.

Lemma counters_le_trans s1 s2 s3 :
  counters_le s1 s2 -> counters_le s2 s3 -> counters_le s1 s3.
Proof. unfold counters_le. lia. Qed.

Create HintDb counters.
#[local] Hint Resolve counters_le_refl : counters.

Lemma mono_of_ole {A} (m : M A) : only_last_error m -> counters_mono m.
Proof.
  intros H w. destruct (H w) as [E|[e E]]; rewrite E; [apply counters_le_refl|].
  unfold with_last_error, counters_le; cbn. lia.
Qed.

Lemma mono_keep {A} (m : M A) :
  (forall w, stats (app_state (snd (m w))) = stats (app_state w)) -> counters_mono m.
Proof. intros H w. rewrite H. apply counters_le_refl. Qed.

Lemma mono_bind {A B} (m : M A) (k : A -> M B) :
  counters_mono m -> (forall a, counters_mono (k a)) -> counters_mono (bind m k).
Proof.
  intros Hm Hk w. unfold bind. specialize (Hm w).
  destruct (m w) as [[a|e] w1]; cbn [snd] in *; [|exact Hm].
  eapply counters_le_trans; [exact Hm|apply Hk].
Qed.

Lemma mono_try_except {A} (m : M A) (h : exn -> M A) :
  counters_mono m -> (forall e, counters_mono (h e)) -> counters_mono (try_except m h).
Proof.
  intros Hm Hh w. unfold try_except. specialize (Hm w).
  destruct (m w) as [[a|e] w1]; cbn [snd] in *; [exact Hm|].
  destruct (is_Exception e); [|exact Hm].
  eapply counters_le_trans; [exact Hm|apply Hh].
Qed.

Lemma mono_try_finally {A} (m : M A) (fin : M unit) :
  counters_mono m -> counters_mono fin -> counters_mono (try_finally m fin).
Proof.
  intros Hm Hf w. unfold try_finally. specialize (Hm w).
  destruct (m w) as [r w1]; cbn [snd] in *. specialize (Hf w1).
  destruct (fin w1) as [[u|e] w2]; cbn [snd] in *; eapply counters_le_trans; eauto.
Qed.

Lemma mono_incr_stat c n : 0 <= n -> counters_mono (incr_stat c n).
Proof. intros Hn w. unfold counters_le. destruct c; cbn; lia. Qed.

Lemma mono_ret {A} (a : A) : counters_mono (ret a).
Proof. apply mono_keep. reflexivity. Qed.

Lemma mono_lift {A} (r : res A) : counters_mono (lift r).
Proof. apply mono_keep. destruct r; reflexivity. Qed.

Lemma mono_set_current_status s : counters_mono (set_current_status s).
Proof. apply mono_keep. reflexivity. Qed.

Lemma mono_set_last_run t : counters_mono (set_last_run t).
Proof. apply mono_keep. reflexivity. Qed.

Lemma mono_set_favorites_count c : counters_mono (set_favorites_count c).
Proof. apply mono_keep. reflexivity. Qed.

Lemma mono_set_last_error e : counters_mono (set_last_error e).
Proof. apply mono_of_ole, ole_set_last_error. Qed.

Lemma mono_set_running b : counters_mono (set_running b).
Proof. apply mono_keep. reflexivity. Qed.

Lemma mono_is_set : counters_mono is_set.
Proof. apply mono_keep. reflexivity. Qed.

#[local] Hint Resolve mono_ret mono_lift mono_set_current_status mono_set_last_run
  mono_set_favorites_count mono_set_last_error mono_set_running mono_is_set : counters.

(** Decompose a monadic program into its statements. *)
Ltac mono_split :=
  repeat match goal with
  | |- counters_mono (bind _ _) => apply mono_bind; [|intros ?]
  | |- counters_mono (try_except _ _) => apply mono_try_except; [|intros ?]
  | |- counters_mono (try_finally _ _) => apply mono_try_finally
  | |- counters_mono (match ?x with _ => _ end) => destruct x
  | |- counters_mono (if ?b then _ else _) => destruct b
  end; auto with counters.

Lemma mono_download_category env status favs is_album mw bs ok ko :
  counters_mono (download_category env status favs is_album mw bs ok ko).
Proof.
  unfold download_category. destruct favs as [|f fs]; [apply mono_ret|].
  mono_split.
  - apply mono_of_ole, ole_batch_download.
  - apply mono_incr_stat. unfold len. lia.
  - apply mono_incr_stat. unfold len. lia.
Qed.

#[local] Hint Resolve mono_download_category : counters.

Lemma mono_process_favorites cfg env : counters_mono (process_favorites cfg env).
Proof. unfold process_favorites. mono_split. Qed.

Lemma mono_job cfg env : counters_mono (job cfg env).
Proof. unfold job. mono_split. apply mono_process_favorites. Qed.

Lemma step_counters w w' : step w w' -> counters_le (stats (app_state w)) (stats (app_state w')).
Proof.
  intros H. destruct H as [cfg env w|cfg env w|t w].
  - apply mono_job.
  - unfold api_trigger, trigger_job, bind, is_set.
    destruct (job_running w); [apply counters_le_refl|apply counters_le_refl].
  - apply counters_le_refl.
Qed.

(** Along any sequence of operations no counter decreases. *)
Lemma counters_monotone_steps :
  forall w w', clos_refl_trans World step w w' ->
    counters_le (stats (app_state w)) (stats (app_state w')).
Proof.
  intros w w' H. induction H as [w w' Hs|w|w1 w2 w3 _ IH1 _ IH2].
  - now apply step_counters.
  - apply counters_le_refl.
  - eapply counters_le_trans; eauto.
Qed.

(** * Witnesses: the hypotheses of the theorems hold at concrete inputs *)

Lemma get_user_favorites_pages_witness :
  exists favorites,
    get_user_favorites (demo_env no_item) "tracks" =
      (map (fun j => (50, 50 * Z.of_nat j)) (seq 0 (S (length demo_pages))), Ok favorites) /\
    favorites = concat demo_pages /\
    length favorites = list_sum (map (@length Item) demo_pages).
Proof.
  apply (get_user_favorites_pages (demo_env no_item) "tracks" demo_pages (Ok [])).
  - intros j p H.
    destruct j as [|[|[|j]]]; cbn [nth_error demo_pages] in H;
      [injection H as <-; split; [vm_compute; reflexivity|discriminate]..|].
    destruct j; discriminate.
  - vm_compute. reflexivity.
  - left. reflexivity.
  - vm_compute. lia.
Defined.

Lemma batch_download_partition_witness :
  exists successful failed w',
    batch_download (demo_env no_item) (items_upto 6) false 1 10 world0 =
      (Ok (successful, failed), w') /\
    Permutation (successful ++ failed) (items_upto 6) /\
    (length successful + length failed = length (items_upto 6))%nat /\
    (NoDup (items_upto 6) -> NoDup (successful ++ failed) /\
       forall item, In item successful -> ~ In item failed).
Proof.
  apply batch_download_partition.
  - discriminate.
  - lia.
  - lia.
  - vm_compute. repeat constructor.
  - vm_compute. repeat constructor.
Defined.

Lemma batch_download_absorbs_errors_witness :
  exists successful failed w',
    batch_download (demo_env item5) (items_upto 6) false 1 10 world0 =
      (Ok (successful, failed), w') /\
    (forall item, In item (items_upto 6) -> times_out (demo_env item5) item = false ->
       unit_succeeds (demo_env item5) false item = false -> In item failed) /\
    (forall item, In item failed -> unit_succeeds (demo_env item5) false item = false) /\
    (forall item, In item successful -> unit_succeeds (demo_env item5) false item = true).
Proof.
  apply batch_download_absorbs_errors.
  - discriminate.
  - lia.
  - lia.
  - vm_compute. repeat constructor.
Defined.

Lemma batch_download_chunks_witness :
  let k := Z.to_nat (Z.min 10 (len (items_upto 25))) in
  trace (snd (batch_download (demo_env no_item) (items_upto 25) false 1 10 world0)) =
    trace world0 ++ chunk_events (chunks_of k (items_upto 25)) /\
  concat (chunks_of k (items_upto 25)) = items_upto 25 /\
  Forall (fun ch => length ch = k) (removelast (chunks_of k (items_upto 25))) /\
  Forall (fun ch => ch <> [] /\ (length ch <= k)%nat) (chunks_of k (items_upto 25)) /\
  (10 = 10 -> length (items_upto 25) = 25%nat ->
     exists c1 c2 c3, chunks_of k (items_upto 25) = [c1; c2; c3] /\
       map (@length Item) [c1; c2; c3] = [10; 10; 5]%nat /\
       chunk_events (chunks_of k (items_upto 25)) =
         [EvBatch c1; EvSleep 3; EvBatch c2; EvSleep 3; EvBatch c3]).
Proof.
  apply batch_download_chunks.
  - discriminate.
  - lia.
  - lia.
  - vm_compute. repeat constructor.
Defined.

(** Two successive runs, the first with a stuck unit, the second against a
    healthy remote side. *)
(** * Further properties of the code *)

(** ** [batch_download]: order of the result lists *)

Lemma resolved_filters :
  forall env is_album items,
    flat_map (resolved_ok env) (map (fun item => (item, is_album)) items) =
      filter (fun item => negb (times_out env item) && unit_succeeds env is_album item) items /\
    flat_map (resolved_ko env) (map (fun item => (item, is_album)) items) =
      filter (fun item => negb (times_out env item) && negb (unit_succeeds env is_album item)) items.
Proof.
  intros env is_album items. induction items as [|item items [IH1 IH2]]; [split; reflexivity|].
  cbn [map flat_map filter]. rewrite IH1, IH2.
  unfold resolved_ok, resolved_ko. cbn [fst snd].
  destruct (times_out env item), (unit_succeeds env is_album item); split; reflexivity.
Qed.

(** Although the units of a chunk run concurrently, the results are collected
    in submission order: for a non-empty list, at least one worker and a chunk
    size of at least 1 (collaborators failing only with [Exception]s), the
    succeeded list is exactly the input items, in input order, whose wait
    completed and whose unit succeeded, and the failed list those whose wait
    completed and whose unit failed. *)
Theorem batch_download_results_in_input_order :
  forall env items is_album max_workers current_batch_size w,
    items <> [] -> 1 <= max_workers -> 1 <= current_batch_size ->
    Forall (fun item => unit_errors_are_Exceptions env is_album item = true) items ->
    fst (batch_download env items is_album max_workers current_batch_size w) =
      Ok (filter (fun item => negb (times_out env item) && unit_succeeds env is_album item) items,
          filter (fun item => negb (times_out env item) &&
                              negb (unit_succeeds env is_album item)) items).
Proof.
  intros env items is_album mw c w Hne Hmw Hc Hx.
  destruct (batch_download_run env items is_album mw c w Hne Hmw Hc Hx) as [a' H].
  destruct (resolved_filters env is_album items) as [E1 E2].
  rewrite H, <- E1, <- E2. reflexivity.
Qed.

(** ** [batch_download]: degenerate pool and chunk sizes *)

(** The configuration edge cases of [batch_download], each leaving the state
    (Status Store, lock, events) untouched and downloading nothing: a pool size
    below 1 raises the [ValueError] of [ThreadPoolExecutor]; with a valid pool
    a negative chunk size makes [range] empty, so [([], [])] is returned
    whatever the items; and an effective chunk size of 0 (chunk size 0, or an
    empty list with a chunk size of at least 0) raises the [ValueError] of
    [range]. *)
Theorem batch_download_degenerate_sizes :
  forall env items is_album max_workers current_batch_size w,
    (max_workers <= 0 ->
       batch_download env items is_album max_workers current_batch_size w =
         (Raise (ValueError "max_workers must be greater than 0"), w)) /\
    (1 <= max_workers -> current_batch_size < 0 ->
       batch_download env items is_album max_workers current_batch_size w = (Ok ([], []), w)) /\
    (1 <= max_workers -> (current_batch_size = 0 \/ (items = [] /\ 0 <= current_batch_size)) ->
       batch_download env items is_album max_workers current_batch_size w =
         (Raise (ValueError "range() arg 3 must not be zero"), w)).
Proof.
  intros env items is_album mw c w.
  assert (Hn : 0 <= len items) by (unfold len; lia).
  unfold batch_download, ThreadPoolExecutor. split; [|split].
  - intros Hmw. replace (mw <=? 0) with true by lia. reflexivity.
  - intros Hmw Hc. replace (mw <=? 0) with false by lia.
    unfold bind at 1, ret at 1. unfold py_range.
    replace (Z.min c (len items) =? 0) with false by lia.
    replace (0 <? Z.min c (len items)) with false by lia.
    replace (Z.to_nat (0 - len (map (fun item => (item, is_album)) items))) with 0%nat
      by (unfold len in *; rewrite length_map; lia).
    reflexivity.
  - intros Hmw Hc. replace (mw <=? 0) with false by lia.
    unfold bind at 1, ret at 1. unfold py_range.
    replace (Z.min c (len items) =? 0) with true; [reflexivity|].
    symmetry. apply Z.eqb_eq.
    destruct Hc as [->|[-> Hc]]; [lia|]. unfold len; cbn [length]. lia.
Qed.

(** ** [POST /api/trigger]: the answers *)

(** [trigger_job] never changes the state; it answers 200 and starts the job
    function exactly when the lock is clear and a job function is wired; when
    the lock is held it answers 409 (checked first, even without a job
    function); when the lock is clear and no job function is wired it answers
    500 and starts nothing. *)
Theorem trigger_job_answers :
  forall (job_function : option (M unit)) (w : World),
    exists response thread,
      trigger_job job_function w = (Ok (response, thread), w) /\
      (status_code response = 200 <-> job_running w = false /\ job_function <> None) /\
      (success response = true <-> status_code response = 200) /\
      (thread = if Z.eqb (status_code response) 200 then job_function else None) /\
      (job_running w = true -> status_code response = 409) /\
      (job_running w = false -> job_function = None -> status_code response = 500).
Proof.
  intros jf w. unfold trigger_job, bind, is_set.
  destruct (job_running w) eqn:R; [|destruct jf as [f|]];
    eexists; eexists; (split; [reflexivity|]); cbn;
    repeat split; intros; try discriminate; try tauto; try reflexivity.
  destruct H as [H _]; discriminate.
Qed.

(** ** [process_favorites]: the phase a run ends in *)

Lemma phase_bind {A B} (p : string) (m : M A) (k : A -> M B) :
  (forall a, ends_in_phase p (k a)) -> ends_in_phase p (bind m k).
Proof.
  intros Hk w b w'. unfold bind. destruct (m w) as [[a|e] w0].
  - apply Hk.
  - discriminate.
Qed.

Lemma phase_idle_last (t : option Z) :
  ends_in_phase "idle" (set_current_status "idle" ;; set_last_run t).
Proof. intros w a w' H. injection H as _ <-. reflexivity. Qed.

Lemma phase_try (body : M unit) :
  ends_in_phase "idle" body ->
  forall w,
    let r := try_finally
               (try_except body (fun e => set_last_error (Some (str_exn e)) ;;
                                          set_current_status "error"))
               (set_running false) w in
    (fst r = Ok tt /\
     (current_status (app_state (snd r)) = "idle" \/
      (current_status (app_state (snd r)) = "error" /\
       exists e, is_Exception e = true /\
                 last_error (stats (app_state (snd r))) = Some (str_exn e)))) \/
    (exists e, fst r = Raise e /\ is_Exception e = false).
Proof.
  intros Hb w. cbv zeta. unfold try_finally, try_except.
  destruct (body w) as [[u|e] w1] eqn:B.
  - left. destruct u. split; [reflexivity|]. left. exact (Hb _ _ _ B).
  - destruct (is_Exception e) eqn:X.
    + left. split; [reflexivity|]. right. split; [reflexivity|].
      exists e. split; [exact X|reflexivity].
    + right. exists e. split; [reflexivity|exact X].
Qed.

Ltac phase_split :=
  repeat first [ apply phase_idle_last
               | apply phase_bind; intros [] 
               | apply phase_bind; intros ].

(** A run of [process_favorites] either returns normally with
    [current_status] at ["idle"] (every step done) or at ["error"] with
    [stats.last_error] holding the message of an [Exception], or lets a
    non-[Exception] ([KeyboardInterrupt]) out; it never returns normally with
    an intermediate phase such as ["fetching favorites"] or
    ["downloading albums"]. Consequently [job] never lets an [Exception] out. *)
Theorem process_favorites_final_phase :
  forall (cfg : Config) (env : Env) (w : World),
    ((fst (process_favorites cfg env w) = Ok tt /\
     (current_status (app_state (snd (process_favorites cfg env w))) = "idle" \/
      (current_status (app_state (snd (process_favorites cfg env w))) = "error" /\
       exists e, is_Exception e = true /\
         last_error (stats (app_state (snd (process_favorites cfg env w)))) =
           Some (str_exn e)))) \/
    (exists e, fst (process_favorites cfg env w) = Raise e /\ is_Exception e = false)) /\
    (fst (job cfg env w) = Ok tt \/
     exists e, fst (job cfg env w) = Raise e /\ is_Exception e = false).
Proof.
  intros cfg env w. split.
  - unfold process_favorites. apply phase_try. phase_split.
  - unfold job, bind, is_set, set_running, try_finally, try_except. cbn beta iota.
    destruct (job_running w); [left; reflexivity|].
    destruct (process_favorites cfg env _) as [[u|e] w1].
    + left. destruct u. reflexivity.
    + destruct (is_Exception e) eqn:X; [left; reflexivity|].
      right. exists e. split; [reflexivity|exact X].
Qed.

(** ** [process_favorites]: authentication failure *)

(** When the authentication steps raise [e], nothing is fetched or downloaded:
    if [e] is an [Exception], the run returns normally with [current_status]
    ["error"], [stats.last_error] set to [str(e)], every other field of the
    Status Store as before (counters, [favorites_count], [last_run]) and the
    lock clear; otherwise [e] propagates, leaving [current_status] at
    ["initializing"], and the lock is still cleared. *)
Theorem process_favorites_auth_failure :
  forall (cfg : Config) (env : Env) (w : World) (e : exn),
    authenticate env = Some e ->
    let a := app_state w in
    process_favorites cfg env w =
      if is_Exception e then
        (Ok tt,
         mkWorld (with_last_error
                    (mkAppState (last_run a) (next_run a) "error" (stats a)
                       (current_item a) (favorites_count a))
                    (Some (str_exn e)))
                 false (trace w))
      else
        (Raise e,
         mkWorld (mkAppState (last_run a) (next_run a) "initializing" (stats a)
                    (current_item a) (favorites_count a))
                 false (trace w)).
Proof.
  intros cfg env w e He. cbv zeta.
  unfold process_favorites, try_finally, try_except, bind at 1, set_current_status at 1,
    modify_app at 1.
  cbn beta iota. unfold bind at 1, lift at 1. rewrite He. cbn.
  destruct (is_Exception e); reflexivity.
Qed.

(** ** [process_favorites]: a run that goes through *)

Lemma incr_stat_val c n c' w :
  counter_val c' (stats (app_state (snd (incr_stat c n w)))) =
    counter_val c' (stats (app_state w)) + (if counter_eqb c c' then n else 0).
Proof. destruct c, c'; cbn; lia. Qed.

Lemma incr_stat_frame c n w :
  let a := app_state w in let a' := app_state (snd (incr_stat c n w)) in
  last_run a' = last_run a /\ next_run a' = next_run a /\
  current_status a' = current_status a /\ current_item a' = current_item a /\
  favorites_count a' = favorites_count a /\ last_error (stats a') = last_error (stats a) /\
  job_running (snd (incr_stat c n w)) = job_running w /\
  trace (snd (incr_stat c n w)) = trace w.
Proof. destruct c; cbn; repeat split. Qed.

Lemma filter_clean env is_album items :
  Forall (fun item => unit_clean env is_album item = true) items ->
  filter (fun item => negb (times_out env item) && unit_succeeds env is_album item) items =
    filter (unit_succeeds env is_album) items /\
  filter (fun item => negb (times_out env item) && negb (unit_succeeds env is_album item)) items =
    filter (fun item => negb (unit_succeeds env is_album item)) items.
Proof.
  intros H. rewrite Forall_forall in H. split; apply filter_ext_in; intros x Hx;
    specialize (H x Hx); unfold unit_clean in H; apply andb_prop in H as [_ H];
    destruct (times_out env x); [discriminate|reflexivity|discriminate|reflexivity].
Qed.

Lemma download_category_run :
  forall env status favs is_album max_workers bsize ok ko w,
    1 <= max_workers -> 1 <= bsize ->
    Forall (fun item => unit_clean env is_album item = true) favs ->
    exists w',
      download_category env status favs is_album max_workers bsize ok ko w = (Ok tt, w') /\
      job_running w' = job_running w /\
      trace w' = trace w ++ chunk_events (chunks_of (Z.to_nat (Z.min bsize (len favs))) favs) /\
      last_run (app_state w') = last_run (app_state w) /\
      next_run (app_state w') = next_run (app_state w) /\
      current_item (app_state w') = current_item (app_state w) /\
      favorites_count (app_state w') = favorites_count (app_state w) /\
      last_error (stats (app_state w')) = last_error (stats (app_state w)) /\
      forall c, counter_val c (stats (app_state w')) =
        counter_val c (stats (app_state w))
        + (if counter_eqb ok c then len (filter (unit_succeeds env is_album) favs) else 0)
        + (if counter_eqb ko c then
             len (filter (fun item => negb (unit_succeeds env is_album item)) favs) else 0).
Proof.
  intros env status favs is_album mw bs ok ko w Hmw Hbs Hcl.
  destruct favs as [|x xs].
  - exists w. split; [reflexivity|]. rewrite app_nil_r.
    repeat split; try reflexivity. intros c.
    cbn [filter]. unfold len; cbn [length Z.of_nat].
    destruct (counter_eqb ok c), (counter_eqb ko c); lia.
  - set (w1 := snd (set_current_status status w)).
    assert (Hx : Forall (fun item => unit_errors_are_Exceptions env is_album item = true) (x :: xs)).
    { eapply Forall_impl; [|exact Hcl]. intros y Hy. unfold unit_clean in Hy.
      now apply andb_prop in Hy as [Hy _]. }
    assert (Hto : Forall (fun item => times_out env item = false) (x :: xs)).
    { eapply Forall_impl; [|exact Hcl]. intros y Hy. unfold unit_clean in Hy.
      apply andb_prop in Hy as [_ Hy]. now destruct (times_out env y). }
    destruct (batch_download_run env (x :: xs) is_album mw bs w1) as [a' Hb];
      [discriminate|assumption|assumption|assumption|].
    pose proof (keeps_batch_download env (x :: xs) is_album mw bs Hto w1) as Hk.
    rewrite Hb in Hk. cbn [snd app_state] in Hk. subst a'.
    destruct (resolved_filters env is_album (x :: xs)) as [E1 E2].
    destruct (filter_clean env is_album (x :: xs) Hcl) as [F1 F2].
    rewrite E1, F1, E2, F2 in Hb.
    set (n1 := len (filter (unit_succeeds env is_album) (x :: xs))) in *.
    set (n2 := len (filter (fun item => negb (unit_succeeds env is_album item)) (x :: xs))) in *.
    set (w2 := mkWorld (app_state w1) (job_running w1) (trace w1 ++ _)) in Hb.
    exists (snd (incr_stat ko n2 (snd (incr_stat ok n1 w2)))).
    split.
    { cbn [download_category].
      rewrite (bind_Ok (set_current_status status) _ w tt w1 eq_refl).
      rewrite (bind_Ok _ _ _ _ _ Hb). cbn beta iota.
      unfold bind at 1. destruct (incr_stat ok n1 w2) as [r2 w3] eqn:E3.
      destruct ok; cbn in E3; injection E3 as <- <-; reflexivity. }
    destruct (incr_stat_frame ko n2 (snd (incr_stat ok n1 w2)))
      as (R1 & R2 & R3 & R4 & R5 & R6 & R7 & R8).
    destruct (incr_stat_frame ok n1 w2) as (Q1 & Q2 & Q3 & Q4 & Q5 & Q6 & Q7 & Q8).
    cbv zeta in *.
    rewrite R1, R2, R4, R5, R6, R7, R8, Q1, Q2, Q4, Q5, Q6, Q7, Q8.
    repeat split; try reflexivity.
    intros c. rewrite !incr_stat_val. reflexivity.
Qed.

(** A run of [process_favorites] where authentication succeeds, the three
    fetches return [tracks], [albums] and [artists], the pools and the chunk
    size are at least 1, and every unit fails, if at all, with an
    [Exception] and is not timed out: the run returns normally; it ends
    ["idle"] with [last_run] at the current time and [favorites_count] at the
    three lengths; each category adds its number of succeeded items to its
    [_downloaded] counter and its number of failed items to its [_failed]
    counter; [stats.last_error] (possibly from an earlier run), [next_run]
    and [current_item] stay as they were; the lock is clear; and the chunks
    are processed tracks first, then albums, then artists, with no chunk for
    an empty category. *)
Theorem process_favorites_successful_run :
  forall (cfg : Config) (env : Env) (w : World) (tracks albums artists : list Item),
    authenticate env = None ->
    snd (get_user_favorites env "tracks") = Ok tracks ->
    snd (get_user_favorites env "albums") = Ok albums ->
    snd (get_user_favorites env "artists") = Ok artists ->
    1 <= max_workers_tracks cfg -> 1 <= max_workers_albums cfg ->
    1 <= max_workers_artists cfg -> 1 <= batch_size cfg ->
    Forall (fun item => unit_clean env false item = true) tracks ->
    Forall (fun item => unit_clean env true item = true) albums ->
    Forall (fun item => unit_clean env false item = true) artists ->
    let w' := snd (process_favorites cfg env w) in
    let s := stats (app_state w) in
    let s' := stats (app_state w') in
    fst (process_favorites cfg env w) = Ok tt /\
    current_status (app_state w') = "idle" /\
    last_run (app_state w') = Some (now env) /\
    favorites_count (app_state w') =
      mkFavoritesCount (len tracks) (len albums) (len artists) /\
    tracks_downloaded s' = tracks_downloaded s + len (filter (unit_succeeds env false) tracks) /\
    tracks_failed s' =
      tracks_failed s + len (filter (fun item => negb (unit_succeeds env false item)) tracks) /\
    albums_downloaded s' = albums_downloaded s + len (filter (unit_succeeds env true) albums) /\
    albums_failed s' =
      albums_failed s + len (filter (fun item => negb (unit_succeeds env true item)) albums) /\
    artists_downloaded s' =
      artists_downloaded s + len (filter (unit_succeeds env false) artists) /\
    artists_failed s' =
      artists_failed s + len (filter (fun item => negb (unit_succeeds env false item)) artists) /\
    last_error s' = last_error s /\
    next_run (app_state w') = next_run (app_state w) /\
    current_item (app_state w') = current_item (app_state w) /\
    job_running w' = false /\
    trace w' =
      trace w
      ++ chunk_events (chunks_of (Z.to_nat (Z.min (batch_size cfg) (len tracks))) tracks)
      ++ chunk_events (chunks_of (Z.to_nat (Z.min (batch_size cfg) (len albums))) albums)
      ++ chunk_events (chunks_of (Z.to_nat (Z.min (batch_size cfg) (len artists))) artists).
Proof.
  intros cfg env w tracks albums artists Ha Ht Hal Har Hmt Hma Hmr Hbs Ct Ca Cr.
  cbv zeta. unfold process_favorites. rewrite Ha, Ht, Hal, Har.
  cbv beta iota delta [try_finally try_except bind lift ret set_current_status
                       modify_app set_favorites_count].
  match goal with
  | |- context [download_category env "downloading tracks" tracks false ?m ?b ?o ?k ?w0] =>
      destruct (download_category_run env "downloading tracks" tracks false m b o k w0
                  Hmt Hbs Ct) as (w2 & E2 & J2 & T2 & L2 & N2 & I2 & F2 & R2 & C2)
  end.
  rewrite E2. cbv beta iota.
  match goal with
  | |- context [download_category env "downloading albums" albums true ?m ?b ?o ?k ?w0] =>
      destruct (download_category_run env "downloading albums" albums true m b o k w0
                  Hma Hbs Ca) as (w3 & E3 & J3 & T3 & L3 & N3 & I3 & F3 & R3 & C3)
  end.
  rewrite E3. cbv beta iota.
  match goal with
  | |- context [download_category env "downloading artists" artists false ?m ?b ?o ?k ?w0] =>
      destruct (download_category_run env "downloading artists" artists false m b o k w0
                  Hmr Hbs Cr) as (w4 & E4 & J4 & T4 & L4 & N4 & I4 & F4 & R4 & C4)
  end.
  rewrite E4. cbv beta iota delta [set_last_run set_running modify_app].
  cbn [app_state stats last_run next_run current_status current_item favorites_count
       job_running trace fst snd last_error].
  cbn [app_state stats last_run next_run current_status current_item favorites_count
       job_running trace last_error] in *.
  change (tracks_downloaded ?x) with (counter_val CTracksDl x).
  change (tracks_failed ?x) with (counter_val CTracksKo x).
  change (albums_downloaded ?x) with (counter_val CAlbumsDl x).
  change (albums_failed ?x) with (counter_val CAlbumsKo x).
  change (artists_downloaded ?x) with (counter_val CArtistsDl x).
  change (artists_failed ?x) with (counter_val CArtistsKo x).
  rewrite !C4, !C3, !C2. cbn [counter_eqb].
  rewrite T4, T3, T2, !app_assoc.
  rewrite F4, F3, F2, R4, R3, R2, N4, N3, N2, I4, I3, I2.
  repeat split; try reflexivity; cbn [counter_val]; lia.
Qed.

(** ** [process_favorites]: a pool size below 1 *)

(** With [MAX_WORKERS_TRACKS] below 1 and at least one favorite track, every
    run fails at the tracks stage: the [ValueError] of [ThreadPoolExecutor]
    is caught, the run ends ["error"] with that message in
    [stats.last_error]; [favorites_count] has been recorded, but nothing is
    downloaded (no chunk, counters unchanged), the albums and artists stages
    never start, [last_run] is not updated, and the lock is clear. *)
Theorem process_favorites_no_track_workers :
  forall (cfg : Config) (env : Env) (w : World) (tracks albums artists : list Item),
    authenticate env = None ->
    snd (get_user_favorites env "tracks") = Ok tracks ->
    snd (get_user_favorites env "albums") = Ok albums ->
    snd (get_user_favorites env "artists") = Ok artists ->
    tracks <> [] -> max_workers_tracks cfg <= 0 ->
    let a := app_state w in
    process_favorites cfg env w =
      (Ok tt,
       mkWorld (with_last_error
                  (mkAppState (last_run a) (next_run a) "error" (stats a) (current_item a)
                     (mkFavoritesCount (len tracks) (len albums) (len artists)))
                  (Some "max_workers must be greater than 0"))
               false (trace w)).
Proof.
  intros cfg env w tracks albums artists Ha Ht Hal Har Hne Hmw. cbv zeta.
  unfold process_favorites. rewrite Ha, Ht, Hal, Har.
  destruct tracks as [|x xs]; [contradiction|].
  cbv beta iota delta [try_finally try_except bind lift ret raise set_current_status
                       modify_app set_favorites_count download_category batch_download
                       ThreadPoolExecutor].
  replace (max_workers_tracks cfg <=? 0) with true by lia.
  reflexivity.
Qed.

(** ** [stats.last_error] is never cleared *)

Lemma pres_bind {A B} P (m : M A) (k : A -> M B) :
  preserves P m -> (forall a, preserves P (k a)) -> preserves P (bind m k).
Proof.
  intros Hm Hk w Hw. unfold bind. specialize (Hm w Hw).
  destruct (m w) as [[a|e] w1]; cbn [snd] in *; [apply Hk|]; exact Hm.
Qed.

Lemma pres_try_except {A} P (m : M A) (h : exn -> M A) :
  preserves P m -> (forall e, preserves P (h e)) -> preserves P (try_except m h).
Proof.
  intros Hm Hh w Hw. unfold try_except. specialize (Hm w Hw).
  destruct (m w) as [[a|e] w1]; cbn [snd] in *; [exact Hm|].
  destruct (is_Exception e); [apply Hh|]; exact Hm.
Qed.

Lemma pres_try_finally {A} P (m : M A) (fin : M unit) :
  preserves P m -> preserves P fin -> preserves P (try_finally m fin).
Proof.
  intros Hm Hf w Hw. unfold try_finally. specialize (Hm w Hw).
  destruct (m w) as [r w1]; cbn [snd] in *. specialize (Hf w1 Hm).
  destruct (fin w1) as [[u|e] w2]; exact Hf.
Qed.

Lemma pres_mfold {A B} P (f : B -> A -> M B) (l : list A) (b : B) :
  (forall b x, preserves P (f b x)) -> preserves P (mfold f l b).
Proof.
  intros Hf. revert b. induction l as [|x xs IH]; intros b; cbn [mfold].
  - intros w Hw. exact Hw.
  - apply pres_bind; [apply Hf|exact IH].
Qed.

Lemma pres_stats {A} (m : M A) :
  (forall w, last_error (stats (app_state (snd (m w)))) = last_error (stats (app_state w))) ->
  preserves error_recorded m.
Proof. intros H w Hw. unfold error_recorded. now rewrite H. Qed.

Lemma rec_ret {A} (a : A) : preserves error_recorded (ret a).
Proof. apply pres_stats. reflexivity. Qed.

Lemma rec_raise {A} e : preserves error_recorded (@raise A e).
Proof. apply pres_stats. reflexivity. Qed.

Lemma rec_lift {A} (r : res A) : preserves error_recorded (lift r).
Proof. apply pres_stats. destruct r; reflexivity. Qed.

Lemma rec_set_current_status s : preserves error_recorded (set_current_status s).
Proof. apply pres_stats. reflexivity. Qed.

Lemma rec_set_last_run t : preserves error_recorded (set_last_run t).
Proof. apply pres_stats. reflexivity. Qed.

Lemma rec_set_next_run t : preserves error_recorded (set_next_run t).
Proof. apply pres_stats. reflexivity. Qed.

Lemma rec_set_favorites_count c : preserves error_recorded (set_favorites_count c).
Proof. apply pres_stats. reflexivity. Qed.

Lemma rec_set_last_error_Some msg : preserves error_recorded (set_last_error (Some msg)).
Proof. intros w _. unfold error_recorded. cbn. discriminate. Qed.

Lemma rec_incr_stat c n : preserves error_recorded (incr_stat c n).
Proof. apply pres_stats. destruct c; reflexivity. Qed.

Lemma rec_emit ev : preserves error_recorded (emit ev).
Proof. apply pres_stats. reflexivity. Qed.

Lemma rec_set_running b : preserves error_recorded (set_running b).
Proof. apply pres_stats. reflexivity. Qed.

Lemma rec_is_set : preserves error_recorded is_set.
Proof. apply pres_stats. reflexivity. Qed.

Lemma rec_ThreadPoolExecutor mw : preserves error_recorded (ThreadPoolExecutor mw).
Proof. apply pres_stats. intros w. unfold ThreadPoolExecutor. now destruct (mw <=? 0). Qed.

Create HintDb sticky.
#[local] Hint Resolve rec_ret rec_raise rec_lift rec_set_current_status rec_set_last_run
  rec_set_next_run rec_set_favorites_count rec_set_last_error_Some rec_incr_stat rec_emit
  rec_set_running rec_is_set rec_ThreadPoolExecutor : sticky.

Ltac rec_split :=
  repeat match goal with
  | |- preserves _ (bind _ _) => apply pres_bind; [|intros ?]
  | |- preserves _ (try_except _ _) => apply pres_try_except; [|intros ?]
  | |- preserves _ (try_finally _ _) => apply pres_try_finally
  | |- preserves _ (mfold _ _ _) => apply pres_mfold; intros ? ?
  | |- preserves _ (match ?x with _ => _ end) => destruct x
  | |- preserves _ (if ?b then _ else _) => destruct b
  end; auto with sticky.

Lemma rec_collect_result env acc task : preserves error_recorded (collect_result env acc task).
Proof. unfold collect_result. destruct acc. rec_split. Qed.

#[local] Hint Resolve rec_collect_result : sticky.

Lemma rec_batch_download env items is_album mw c :
  preserves error_recorded (batch_download env items is_album mw c).
Proof. unfold batch_download, process_batch. rec_split. Qed.

#[local] Hint Resolve rec_batch_download : sticky.

Lemma rec_download_category env status favs is_album mw bs ok ko :
  preserves error_recorded (download_category env status favs is_album mw bs ok ko).
Proof. unfold download_category. rec_split. Qed.

#[local] Hint Resolve rec_download_category : sticky.

Lemma rec_job cfg env : preserves error_recorded (job cfg env).
Proof. unfold job, process_favorites. rec_split. Qed.

Lemma rec_step w w' : step w w' -> error_recorded w -> error_recorded w'.
Proof.
  intros H. destruct H as [cfg env w|cfg env w|t w].
  - apply rec_job.
  - unfold api_trigger, trigger_job, bind, is_set. now destruct (job_running w).
  - apply rec_set_next_run.
Qed.

(** No statement of the program ever resets [stats.last_error] to [None]:
    along any sequence of operations (runs of [job] whatever the remote side
    does, manual triggers, scheduler ticks), once an error message is on
    record one stays on record; a later successful run does not clear it. *)
Theorem last_error_never_cleared :
  forall w w', clos_refl_trans World step w w' -> error_recorded w -> error_recorded w'.
Proof.
  intros w w' H. induction H as [w w' Hs|w|w1 w2 w3 _ IH1 _ IH2]; intros Hw.
  - exact (rec_step w w' Hs Hw).
  - exact Hw.
  - exact (IH2 (IH1 Hw)).
Qed.

(** ** [get_user_favorites]: an interruption during pagination *)

Lemma favorites_loop_interrupted :
  forall env fav_type (pages : list (list Item)) (k : Z) acc fuel e,
    (forall j p, nth_error pages j = Some p ->
       favorites_get env fav_type 50 (50 * (k + Z.of_nat j)) = Ok p /\ p <> []) ->
    favorites_get env fav_type 50 (50 * (k + len pages)) = Raise e ->
    is_Exception e = false ->
    (length pages < fuel)%nat ->
    favorites_loop env fav_type 50 (50 * k) acc fuel =
      (map (fun j => (50, 50 * (k + Z.of_nat j))) (seq 0 (S (length pages))), Raise e).
Proof.
  intros env fav_type pages. induction pages as [|p ps IH];
    intros k acc fuel e Hpages Hstop He Hfuel;
    (destruct fuel as [|fuel]; [simpl in Hfuel; lia|]).
  - unfold len in Hstop; simpl in Hstop. rewrite Z.add_0_r in Hstop.
    simpl. rewrite Z.add_0_r, Hstop, He. reflexivity.
  - cbn [favorites_loop]. destruct (Hpages 0%nat p eq_refl) as [Hp Hne].
    change (Z.of_nat 0) with 0 in Hp. rewrite Z.add_0_r in Hp. rewrite Hp.
    assert (Hrec : favorites_loop env fav_type 50 (50 * k + 50) (acc ++ p) fuel =
      (map (fun j => (50, 50 * ((k + 1) + Z.of_nat j))) (seq 0 (S (length ps))), Raise e)).
    { replace (50 * k + 50) with (50 * (k + 1)) by lia.
      apply (IH (k + 1) (acc ++ p) fuel e).
      - intros j q Hq. replace (k + 1 + Z.of_nat j) with (k + Z.of_nat (S j)) by lia.
        apply Hpages. exact Hq.
      - rewrite <- Hstop. f_equal. unfold len. cbn [length]. lia.
      - exact He.
      - simpl in Hfuel. lia. }
    destruct p as [|x xs]; [contradiction|].
    cbn beta iota. rewrite Hrec. cbn beta iota. f_equal.
    cbn [length].
    change (seq 0 (S (S (length ps)))) with (0%nat :: seq 1 (S (length ps))).
    rewrite <- seq_shift, map_cons, map_map. f_equal.
    + f_equal. lia.
    + apply map_ext. intros j. f_equal. lia.
Qed.

(** The handler of [get_user_favorites] catches [Exception] only: when the
    remote side serves the non-empty pages [pages] and the next request is
    interrupted by a non-[Exception] [e] ([KeyboardInterrupt]), [e]
    propagates to the caller after the same requests as in an uninterrupted
    read, and the pages already read are not returned. *)
Theorem get_user_favorites_interrupted :
  forall (env : Env) (fav_type : string) (pages : list (list Item)) (e : exn),
    (forall j p, nth_error pages j = Some p ->
       favorites_get env fav_type 50 (50 * Z.of_nat j) = Ok p /\ p <> []) ->
    favorites_get env fav_type 50 (50 * len pages) = Raise e ->
    is_Exception e = false ->
    (length pages < page_fuel env)%nat ->
    get_user_favorites env fav_type =
      (map (fun j => (50, 50 * Z.of_nat j)) (seq 0 (S (length pages))), Raise e).
Proof.
  intros env fav_type pages e Hpages Hstop He Hfuel.
  unfold get_user_favorites.
  replace 0 with (50 * 0) at 1 by reflexivity.
  rewrite (favorites_loop_interrupted env fav_type pages 0 [] (page_fuel env) e);
    [reflexivity|exact Hpages|exact Hstop|exact He|exact Hfuel].
Qed.

(** * Witnesses of the further properties *)

Lemma batch_download_results_in_input_order_witness :
  fst (batch_download (demo_env item5) (items_upto 6) false 1 4 world0) =
    Ok (filter (fun item => negb (item5 item) && unit_succeeds (demo_env item5) false item)
          (items_upto 6),
        filter (fun item => negb (item5 item) &&
                            negb (unit_succeeds (demo_env item5) false item)) (items_upto 6)).
Proof.
  apply (batch_download_results_in_input_order (demo_env item5) (items_upto 6) false 1 4 world0).
  - discriminate.
  - lia.
  - lia.
  - vm_compute. repeat constructor.
Defined.

Lemma process_favorites_auth_failure_witness :
  process_favorites config0 login_failure_env world0 =
    (Ok tt,
     mkWorld (with_last_error
                (mkAppState None None "error" (stats app_state0) None (mkFavoritesCount 0 0 0))
                (Some "Invalid credentials"))
             false []).
Proof.
  rewrite (process_favorites_auth_failure config0 login_failure_env world0
             (RuntimeError "Invalid credentials") eq_refl).
  reflexivity.
Defined.

Lemma process_favorites_successful_run_witness :
  fst (process_favorites config0 (demo_env no_item) world0) = Ok tt /\
  current_status (app_state (snd (process_favorites config0 (demo_env no_item) world0))) =
    "idle" /\
  tracks_downloaded (stats (app_state (snd (process_favorites config0 (demo_env no_item) world0))))
    = 0 + len (filter (unit_succeeds (demo_env no_item) false) (items_upto 120)).
Proof.
  pose proof (process_favorites_successful_run config0 (demo_env no_item) world0
                (items_upto 120) (items_upto 120) (items_upto 120)) as H.
  destruct H as (H1 & H2 & _ & _ & H5 & _).
  - reflexivity.
  - vm_compute. reflexivity.
  - vm_compute. reflexivity.
  - vm_compute. reflexivity.
  - vm_compute. discriminate.
  - vm_compute. discriminate.
  - vm_compute. discriminate.
  - vm_compute. discriminate.
  - vm_compute. repeat constructor.
  - vm_compute. repeat constructor.
  - vm_compute. repeat constructor.
  - split; [exact H1|split; [exact H2|exact H5]].
Defined.

Lemma process_favorites_no_track_workers_witness :
  current_status (app_state (snd (process_favorites (mkConfig 0 1 1 10) (demo_env no_item)
                                    world0))) = "error" /\
  last_error (stats (app_state (snd (process_favorites (mkConfig 0 1 1 10) (demo_env no_item)
                                       world0)))) =
    Some "max_workers must be greater than 0".
Proof.
  rewrite (process_favorites_no_track_workers (mkConfig 0 1 1 10) (demo_env no_item) world0
             (items_upto 120) (items_upto 120) (items_upto 120)).
  - split; reflexivity.
  - reflexivity.
  - vm_compute. reflexivity.
  - vm_compute. reflexivity.
  - vm_compute. reflexivity.
  - vm_compute. discriminate.
  - vm_compute. discriminate.
Defined.

Lemma last_error_never_cleared_witness :
  error_recorded (snd (job config0 (demo_env no_item)
                         (snd (job config0 (demo_env item5) world0)))).
Proof.
  apply (last_error_never_cleared (snd (job config0 (demo_env item5) world0))).
  - apply rt_step, step_job.
  - unfold error_recorded. vm_compute. discriminate.
Defined.

Lemma get_user_favorites_interrupted_witness :
  get_user_favorites interrupted_env "tracks" =
    (map (fun j => (50, 50 * Z.of_nat j)) (seq 0 (S (length (firstn 2 demo_pages)))),
     Raise KeyboardInterrupt).
Proof.
  apply (get_user_favorites_interrupted interrupted_env "tracks" (firstn 2 demo_pages)).
  - intros j p H.
    destruct j as [|[|j]]; cbn [firstn nth_error demo_pages] in H;
      [injection H as <-; split; [vm_compute; reflexivity|discriminate]..|].
    destruct j; discriminate.
  - vm_compute. reflexivity.
  - reflexivity.
  - vm_compute. lia.
Defined.

(** * C8: the writers of the Status Store *)

Lemma record_timeout_or b1 b2 a :
  record_timeout b2 (record_timeout b1 a) = record_timeout (b1 || b2) a.
Proof. destruct b1, b2; reflexivity. Qed.

Lemma otw_bind {A B} (m : M A) (k : A -> M B) :
  only_timeout_write m -> (forall a, only_timeout_write (k a)) ->
  only_timeout_write (bind m k).
Proof.
  intros Hm Hk w. unfold bind. specialize (Hm w).
  destruct (m w) as [[a|e] w1]; cbn [snd] in *; [|exact Hm].
  destruct Hm as [E|E]; destruct (Hk a w1) as [F|F]; rewrite F, E; auto.
Qed.

Lemma otw_mfold {A B} (f : B -> A -> M B) (l : list A) (b : B) :
  (forall b x, only_timeout_write (f b x)) -> only_timeout_write (mfold f l b).
Proof.
  intros Hf. revert b. induction l as [|x xs IH]; intros b; cbn [mfold].
  - intros w. now left.
  - apply otw_bind; [apply Hf|exact IH].
Qed.

Lemma otw_keep {A} (m : M A) : keeps_app_state m -> only_timeout_write m.
Proof. intros H w. left. apply H. Qed.

(** [download_item] catches every [Exception]: what it raises is not one. *)
Lemma download_item_raises_non_Exception env task e :
  snd (download_item env task) = Raise e -> is_Exception e = false.
Proof.
  destruct task as [item b]. unfold download_item.
  destruct (download_from_id env item b) as [e1|];
    [|destruct (favorites_del env item) as [e1|]];
    cbn [snd]; try (destruct (is_Exception e1) eqn:X); intros H; try discriminate;
    injection H as <-; exact X.
Qed.

Lemma otw_collect_result env acc task : only_timeout_write (collect_result env acc task).
Proof.
  intros w. destruct acc as [ok ko].
  unfold collect_result, try_except, bind, lift, future_result.
  destruct (times_out env (fst task)).
  - right. reflexivity.
  - destruct (snd (download_item env task)) as [[[|] it]|e] eqn:D; cbn.
    + now left.
    + now left.
    + rewrite (download_item_raises_non_Exception env task e D). now left.
Qed.

Lemma otw_batch_download env items is_album mw c :
  only_timeout_write (batch_download env items is_album mw c).
Proof.
  apply otw_bind.
  { apply otw_keep. unfold ThreadPoolExecutor. destruct (mw <=? 0); intros w; reflexivity. }
  intros _. apply otw_bind; [apply otw_keep; intros w; destruct py_range; reflexivity|].
  intros starts. apply otw_mfold. intros acc i. unfold process_batch.
  apply otw_bind; [apply otw_keep; intros w; reflexivity|]. intros _.
  apply otw_bind; [apply otw_mfold; intros; apply otw_collect_result|]. intros acc'.
  apply otw_keep. intros w. unfold bind.
  destruct (_ <? _); reflexivity.
Qed.

Lemma collect_result_app env acc item is_album w :
  unit_errors_are_Exceptions env is_album item = true ->
  app_state (snd (collect_result env acc (item, is_album) w)) =
    record_timeout (times_out env item) (app_state w).
Proof.
  intros Hx. destruct acc as [ok ko].
  unfold collect_result, try_except, bind, lift, future_result. cbn [fst].
  destruct (times_out env item); [reflexivity|].
  unfold unit_errors_are_Exceptions in Hx. unfold download_item.
  destruct (download_from_id env item is_album) as [e|];
    [|destruct (favorites_del env item) as [e|]];
    try rewrite Hx; reflexivity.
Qed.

Lemma mfold_collect_app :
  forall env batch acc w,
    Forall (fun t => unit_errors_are_Exceptions env (snd t) (fst t) = true) batch ->
    app_state (snd (mfold (collect_result env) batch acc w)) =
      record_timeout (existsb (fun t => times_out env (fst t)) batch) (app_state w).
Proof.
  intros env batch. induction batch as [|[item b] batch IH]; intros [ok ko] w Hall;
    [reflexivity|].
  inversion Hall as [|? ? Hx Hrest]; subst.
  destruct (collect_result_step env ok ko item b w Hx) as [a1 H1].
  pose proof (collect_result_app env (ok, ko) item b w Hx) as A1.
  rewrite H1 in A1. cbn [snd app_state] in A1.
  cbn [mfold]. rewrite (bind_Ok _ _ _ _ _ H1), IH by exact Hrest.
  cbn [app_state existsb fst]. rewrite A1. apply record_timeout_or.
Qed.

Lemma process_batch_app :
  forall env tasks k acc i w,
    Forall (fun t => unit_errors_are_Exceptions env (snd t) (fst t) = true) tasks ->
    app_state (snd (process_batch env tasks k acc i w)) =
      record_timeout (existsb (fun t => times_out env (fst t)) (py_slice tasks i (i + k)))
        (app_state w).
Proof.
  intros env tasks k acc i w Hall.
  assert (Hs : Forall (fun t => unit_errors_are_Exceptions env (snd t) (fst t) = true)
                 (py_slice tasks i (i + k))).
  { unfold py_slice. apply Forall_skipn_firstn.
    apply (Forall_skipn_firstn _ tasks (Z.to_nat i)). exact Hall. }
  unfold process_batch.
  set (batch := py_slice tasks i (i + k)) in *.
  set (w1 := mkWorld (app_state w) (job_running w) (trace w ++ [EvBatch (map fst batch)])).
  destruct (collect_loop env batch acc w1 Hs) as [a1 H1].
  pose proof (mfold_collect_app env batch acc w1 Hs) as A1.
  rewrite H1 in A1. cbn [snd app_state] in A1.
  unfold bind at 1, emit at 1. fold w1.
  rewrite (bind_Ok _ _ _ _ _ H1).
  destruct (i + k <? len tasks); unfold bind, emit, ret; cbn; exact A1.
Qed.

Lemma outer_loop_app :
  forall env tasks k fuel i acc w,
    1 <= k -> 0 <= i -> (Z.to_nat (len tasks - i) <= fuel)%nat ->
    Forall (fun t => unit_errors_are_Exceptions env (snd t) (fst t) = true) tasks ->
    app_state (snd (mfold (process_batch env tasks k) (range_up i (len tasks) k fuel) acc w)) =
      record_timeout (existsb (fun t => times_out env (fst t)) (skipn (Z.to_nat i) tasks))
        (app_state w).
Proof.
  intros env tasks k fuel. induction fuel as [|fuel IH];
    intros i acc w Hk Hi Hf Hall.
  - assert (Hnil : skipn (Z.to_nat i) tasks = []).
    { apply skipn_all2. unfold len in Hf. lia. }
    rewrite Hnil. reflexivity.
  - cbn [range_up]. destruct (i <? len tasks) eqn:Hlt.
    + apply Z.ltb_lt in Hlt.
      destruct (process_batch_step env tasks k acc i w Hall) as [a1 H1].
      pose proof (process_batch_app env tasks k acc i w Hall) as A1.
      rewrite H1 in A1. cbn [snd app_state] in A1.
      cbn [mfold]. rewrite (bind_Ok _ _ _ _ _ H1).
      rewrite IH by (unfold len in *; lia || exact Hall).
      cbn [app_state]. rewrite A1, record_timeout_or.
      assert (Hsplit : skipn (Z.to_nat i) tasks =
                       py_slice tasks i (i + k) ++ skipn (Z.to_nat (i + k)) tasks).
      { unfold py_slice. replace (i + k - i) with k by lia.
        rewrite Z2Nat.inj_add by lia. rewrite Nat.add_comm, <- skipn_skipn.
        symmetry. apply firstn_skipn. }
      rewrite Hsplit, existsb_app. reflexivity.
    + apply Z.ltb_ge in Hlt.
      assert (Hnil : skipn (Z.to_nat i) tasks = []).
      { apply skipn_all2. unfold len in Hlt. lia. }
      rewrite Hnil. reflexivity.
Qed.

Lemma batch_download_app :
  forall env items is_album max_workers current_batch_size w,
    items <> [] -> 1 <= max_workers -> 1 <= current_batch_size ->
    Forall (fun item => unit_errors_are_Exceptions env is_album item = true) items ->
    app_state (snd (batch_download env items is_album max_workers current_batch_size w)) =
      record_timeout (existsb (times_out env) items) (app_state w).
Proof.
  intros env items is_album mw c w Hne Hmw Hc Hall.
  set (tasks := map (fun item => (item, is_album)) items).
  assert (Hlen : len tasks = len items) by (unfold len, tasks; now rewrite length_map).
  assert (Hpos : 1 <= len items).
  { destruct items; [contradiction|]. unfold len; cbn [length]. lia. }
  assert (Htasks : Forall (fun t => unit_errors_are_Exceptions env (snd t) (fst t) = true) tasks).
  { unfold tasks. apply Forall_map. exact Hall. }
  pose proof (outer_loop_app env tasks (Z.min c (len items)) (Z.to_nat (len tasks - 0)) 0
                ([], []) w) as H.
  unfold batch_download, ThreadPoolExecutor.
  replace (mw <=? 0) with false by lia.
  unfold bind at 1, ret at 1. unfold py_range.
  replace (Z.min c (len items) =? 0) with false by lia.
  replace (0 <? Z.min c (len items)) with true by lia.
  unfold lift at 1, bind at 1, ret at 1. fold tasks.
  rewrite H by (lia || exact Htasks). clear H.
  assert (G : forall l, existsb (fun t : Item * bool => times_out env (fst t))
                          (map (fun item => (item, is_album)) l) = existsb (times_out env) l)
    by (intros l; induction l as [|x xs IH]; [reflexivity|cbn; now rewrite IH]).
  cbn [Z.to_nat skipn]. f_equal. unfold tasks. apply G.
Qed.

(** C8 (amended). [batch_download] writes no field of the Status Store other
    than [stats.last_error], and the only value it ever writes there is
    [str(e)] of the [TimeoutError] raised by a wait that timed out (its
    outcome whatever, a raised exception included). It leaves the Status
    Store unchanged when no wait times out; for a non-empty list, pool and
    chunk sizes of at least 1 and units failing only with [Exception]s, it
    does write that message as soon as one wait times out. The other
    writers: a scheduler tick of [run_scheduler] writes [next_run] only, the
    trigger endpoint writes nothing, and [job] adds no write of its own to
    those of [process_favorites]. *)
Theorem batch_download_status_frame :
  forall env items is_album max_workers current_batch_size w,
    let w' := snd (batch_download env items is_album max_workers current_batch_size w) in
    (app_state w' = app_state w \/
     app_state w' = with_last_error (app_state w) (Some (str_exn TimeoutError))) /\
    (Forall (fun item => times_out env item = false) items -> app_state w' = app_state w) /\
    (items <> [] -> 1 <= max_workers -> 1 <= current_batch_size ->
     Forall (fun item => unit_errors_are_Exceptions env is_album item = true) items ->
     Exists (fun item => times_out env item = true) items ->
     app_state w' = with_last_error (app_state w) (Some (str_exn TimeoutError))) /\
    (forall (t : option Z) (w0 : World),
       let a := app_state w0 in
       app_state (snd (scheduler_tick t w0)) =
         mkAppState (last_run a) t (current_status a) (stats a) (current_item a)
           (favorites_count a)) /\
    (forall (cfg : Config) (env' : Env) (w0 : World),
       app_state (snd (api_trigger cfg env' w0)) = app_state w0) /\
    (forall (cfg : Config) (env' : Env) (w0 : World),
       app_state (snd (job cfg env' w0)) =
         if job_running w0 then app_state w0
         else app_state (snd (process_favorites cfg env'
                                (mkWorld (app_state w0) true (trace w0))))).
Proof.
  intros env items is_album mw c w w'.
  split; [|split; [|split; [|split; [|split]]]].
  - apply otw_batch_download.
  - intros Hall. apply keeps_batch_download. exact Hall.
  - intros Hne Hmw Hc Hx Hex. unfold w'. rewrite batch_download_app by assumption.
    replace (existsb (times_out env) items) with true; [reflexivity|].
    symmetry. apply existsb_exists. apply Exists_exists in Hex. exact Hex.
  - intros t w0. reflexivity.
  - intros cfg env' w0. unfold api_trigger, trigger_job, bind, is_set.
    destruct (job_running w0); reflexivity.
  - intros cfg env' w0. unfold job, bind at 1, is_set. cbn beta iota.
    destruct (job_running w0); [reflexivity|].
    unfold bind, set_running at 1, try_finally, try_except. cbn beta iota.
    destruct (process_favorites cfg env' _) as [[u|e] w1]; cbn; [reflexivity|].
    destruct (is_Exception e); reflexivity.
Qed.

(** * C9: each run adds its own totals to the counters *)

Lemma add_keep {A} (m : M A) r :
  (forall w, fst (m w) = r /\ stats (app_state (snd (m w))) = stats (app_state w)) ->
  adds_to_counters m.
Proof.
  intros H. exists r, (fun _ => 0). split; [intros; lia|].
  intros w. destruct (H w) as [E S]. split; [exact E|]. intros c. rewrite S. lia.
Qed.

Lemma add_bind {A B} (m : M A) (k : A -> M B) :
  adds_to_counters m -> (forall a, adds_to_counters (k a)) -> adds_to_counters (bind m k).
Proof.
  intros (r & d & Hd & H) Hk. destruct r as [a|e].
  - destruct (Hk a) as (r2 & d2 & Hd2 & H2).
    exists r2, (fun c => d c + d2 c). split; [intros c; specialize (Hd c); specialize (Hd2 c); lia|].
    intros w. unfold bind. destruct (H w) as [E1 C1].
    destruct (m w) as [r0 w1]; cbn [fst snd] in *; subst r0.
    destruct (H2 w1) as [E2 C2]. split; [exact E2|]. intros c. rewrite C2, C1. lia.
  - exists (Raise e), d. split; [exact Hd|].
    intros w. unfold bind. destruct (H w) as [E1 C1].
    destruct (m w) as [r0 w1]; cbn [fst snd] in *; subst r0. split; [reflexivity|exact C1].
Qed.

Lemma add_try_except {A} (m : M A) (h : exn -> M A) :
  adds_to_counters m -> (forall e, adds_to_counters (h e)) ->
  adds_to_counters (try_except m h).
Proof.
  intros (r & d & Hd & H) Hh.
  destruct r as [a|e]; [|destruct (is_Exception e) eqn:X].
  - exists (Ok a), d. split; [exact Hd|]. intros w. unfold try_except.
    destruct (H w) as [E1 C1]. destruct (m w) as [r0 w1]; cbn [fst snd] in *; subst r0.
    split; [reflexivity|exact C1].
  - destruct (Hh e) as (r2 & d2 & Hd2 & H2).
    exists r2, (fun c => d c + d2 c). split; [intros c; specialize (Hd c); specialize (Hd2 c); lia|].
    intros w. unfold try_except. destruct (H w) as [E1 C1].
    destruct (m w) as [r0 w1]; cbn [fst snd] in *; subst r0. rewrite X.
    destruct (H2 w1) as [E2 C2]. split; [exact E2|]. intros c. rewrite C2, C1. lia.
  - exists (Raise e), d. split; [exact Hd|]. intros w. unfold try_except.
    destruct (H w) as [E1 C1]. destruct (m w) as [r0 w1]; cbn [fst snd] in *; subst r0.
    rewrite X. split; [reflexivity|exact C1].
Qed.

Lemma add_try_finally {A} (m : M A) (fin : M unit) :
  adds_to_counters m -> adds_to_counters fin -> adds_to_counters (try_finally m fin).
Proof.
  intros (r & d & Hd & H) (rf & df & Hdf & Hf).
  exists (match rf with Ok _ => r | Raise e => Raise e end), (fun c => d c + df c).
  split; [intros c; specialize (Hd c); specialize (Hdf c); lia|].
  intros w. unfold try_finally. destruct (H w) as [E1 C1].
  destruct (m w) as [r0 w1]; cbn [fst snd] in *; subst r0.
  destruct (Hf w1) as [E2 C2].
  destruct (fin w1) as [r1 w2]; cbn [fst snd] in *; subst r1.
  destruct rf; (split; [reflexivity|]); intros c; cbn [snd]; rewrite C2, C1; lia.
Qed.

Lemma add_mfold {A B} (f : B -> A -> M B) (l : list A) (b : B) :
  (forall b x, adds_to_counters (f b x)) -> adds_to_counters (mfold f l b).
Proof.
  intros Hf. revert b. induction l as [|x xs IH]; intros b; cbn [mfold].
  - apply (add_keep _ (Ok b)). intros w. split; reflexivity.
  - apply add_bind; [apply Hf|exact IH].
Qed.

Lemma add_ret {A} (a : A) : adds_to_counters (ret a).
Proof. apply (add_keep _ (Ok a)). intros w. split; reflexivity. Qed.

Lemma add_raise {A} e : adds_to_counters (@raise A e).
Proof. apply (add_keep _ (Raise e)). intros w. split; reflexivity. Qed.

Lemma add_lift {A} (r : res A) : adds_to_counters (lift r).
Proof. destruct r; [apply add_ret|apply add_raise]. Qed.

Lemma add_set_current_status s : adds_to_counters (set_current_status s).
Proof. apply (add_keep _ (Ok tt)). intros w. split; reflexivity. Qed.

Lemma add_set_last_run t : adds_to_counters (set_last_run t).
Proof. apply (add_keep _ (Ok tt)). intros w. split; reflexivity. Qed.

Lemma add_set_favorites_count fc : adds_to_counters (set_favorites_count fc).
Proof. apply (add_keep _ (Ok tt)). intros w. split; reflexivity. Qed.

Lemma add_set_running b : adds_to_counters (set_running b).
Proof. apply (add_keep _ (Ok tt)). intros w. split; reflexivity. Qed.

Lemma add_emit ev : adds_to_counters (emit ev).
Proof. apply (add_keep _ (Ok tt)). intros w. split; reflexivity. Qed.

Lemma add_set_last_error e : adds_to_counters (set_last_error e).
Proof.
  exists (Ok tt), (fun _ => 0). split; [intros; lia|].
  intros w. split; [reflexivity|]. intros c. destruct c; cbn; lia.
Qed.

Lemma add_ThreadPoolExecutor mw : adds_to_counters (ThreadPoolExecutor mw).
Proof. unfold ThreadPoolExecutor. destruct (mw <=? 0); [apply add_raise|apply add_ret]. Qed.

Lemma add_incr_stat c n : 0 <= n -> adds_to_counters (incr_stat c n).
Proof.
  intros Hn. exists (Ok tt), (fun c' => if counter_eqb c c' then n else 0).
  split; [intros c'; destruct (counter_eqb c c'); lia|].
  intros w. split; [destruct c; reflexivity|]. intros c'. apply incr_stat_val.
Qed.

Create HintDb additive.
#[local] Hint Resolve add_ret add_raise add_lift add_set_current_status add_set_last_run
  add_set_favorites_count add_set_running add_emit add_set_last_error
  add_ThreadPoolExecutor : additive.

Ltac add_split :=
  repeat match goal with
  | |- adds_to_counters (bind _ _) => apply add_bind; [|intros ?]
  | |- adds_to_counters (try_except _ _) => apply add_try_except; [|intros ?]
  | |- adds_to_counters (try_finally _ _) => apply add_try_finally
  | |- adds_to_counters (mfold _ _ _) => apply add_mfold; intros ? ?
  | |- adds_to_counters (incr_stat _ _) => apply add_incr_stat; unfold len; lia
  | |- adds_to_counters (match ?x with _ => _ end) => destruct x
  | |- adds_to_counters (if ?b then _ else _) => destruct b
  end; auto with additive.

Lemma add_batch_download env items is_album mw c :
  adds_to_counters (batch_download env items is_album mw c).
Proof. unfold batch_download, process_batch, collect_result. add_split. Qed.

#[local] Hint Resolve add_batch_download : additive.

Lemma add_download_category env status favs is_album mw bs ok ko :
  adds_to_counters (download_category env status favs is_album mw bs ok ko).
Proof. unfold download_category. add_split. Qed.

#[local] Hint Resolve add_download_category : additive.

Lemma add_process_favorites cfg env : adds_to_counters (process_favorites cfg env).
Proof. unfold process_favorites. add_split. Qed.

(** C9. The six download counters are cumulative over the life of the
    process. A run of [job] that finds the lock clear adds to each counter an
    amount [delta c >= 0] fixed by the configuration and the remote side
    alone, whatever the counters held before (the run's own totals, e.g. the
    number of succeeded and failed items of each category in a run that
    goes through); a run that finds the lock held, a manual trigger and a
    scheduler tick change no counter; so along any sequence of operations
    no counter ever decreases. *)
Theorem counters_cumulative :
  forall (cfg : Config) (env : Env),
    (exists delta : counter -> Z,
       (forall c, 0 <= delta c) /\
       forall w, job_running w = false ->
         forall c, counter_val c (stats (app_state (snd (job cfg env w)))) =
                   counter_val c (stats (app_state w)) + delta c) /\
    (forall w, job_running w = true -> snd (job cfg env w) = w) /\
    (forall w, stats (app_state (snd (api_trigger cfg env w))) = stats (app_state w)) /\
    (forall t w, stats (app_state (snd (scheduler_tick t w))) = stats (app_state w)) /\
    (forall w w', clos_refl_trans World step w w' ->
       counters_le (stats (app_state w)) (stats (app_state w'))).
Proof.
  intros cfg env. split; [|split; [|split; [|split]]].
  - assert (Hj : adds_to_counters
                   (set_running true ;;
                    try_finally (try_except (process_favorites cfg env) (fun _ => ret tt))
                      (set_running false))).
    { add_split. apply add_process_favorites. }
    destruct Hj as (r & d & Hd & H). exists d. split; [exact Hd|].
    intros w Hw c. destruct (H w) as [_ C]. rewrite <- C.
    unfold job, bind at 1, is_set. rewrite Hw. reflexivity.
  - intros w Hw. unfold job, bind, is_set. rewrite Hw. destruct w; reflexivity.
  - intros w. unfold api_trigger, trigger_job, bind, is_set.
    destruct (job_running w); reflexivity.
  - intros t w. reflexivity.
  - apply counters_monotone_steps.
Qed.
